(** * Zinio issue downloader: fetch, sequence, unlock, merge, persist

    A shallow embedding of [main.go].  Go functions that return
    [(T, error)] become functions returning a pair whose second component
    is an [error] ([None] is Go's [nil]).  Everything the program does to
    the outside world (HTTP requests, filesystem calls, log lines) goes
    through a state monad over [World]; the answers of the outside world
    are read from an environment [Env] of oracles. *)

From Stdlib Require Import ZArith List String Ascii Lia Decimal DecimalString.
From stdpp Require Import base gmap strings list.

Open Scope Z_scope.
Open Scope string_scope.
Open Scope list_scope.

(** ** Errors ([error], [github.com/pkg/errors]) *)

(** A Go [error] is represented by the text of its [Error()] method. *)
Definition error := option string.

(** [errors.Wrapf(err, format, args...)]: [nil] when [err] is [nil],
    otherwise an error whose text is the formatted message, a colon and
    the text of the cause.  The argument [msg] is the formatted message. *)
Definition Wrapf (err : error) (msg : string) : error :=
  match err with
  | None => None
  | Some cause => Some (msg +:+ ": " +:+ cause)
  end.

(** [errors.Errorf(format, args...)] *)
Definition Errorf (msg : string) : error := Some msg.

(** The verb [%d] applied to an [int]. *)
Definition fmt_d (i : Z) : string := NilZero.string_of_int (Z.to_int i).

(** Results of the library calls the program consumes. *)
Inductive Res (A : Type) : Type :=
| Ok (a : A)
| Err (e : string).
Arguments Ok {A} a.
Arguments Err {A} e.

Definition bytes := list Byte.byte.

(** ** Go slices

    A slice is a window [off, off+len) on a backing array; its capacity is
    what is left of the array after [off].  [append] writes in place when
    there is spare capacity and moves to a fresh array otherwise. *)
Section Slices.
Context {A : Type}.
(** The zero value of the element type fills unused capacity. *)
Variable zero : A.
(** Spare capacity the runtime adds when it reallocates for a given
    length. *)
Variable spare : nat → nat.

Record slice := Slice { arr : list A; off : nat; len : nat }.

Definition cap (s : slice) : nat := (length (arr s) - off s)%nat.

(** The elements a [range] loop over the slice visits, in order. *)
Definition view (s : slice) : list A := take (len s) (drop (off s) (arr s)).

Definition wf (s : slice) : Prop := (off s + len s ≤ length (arr s))%nat.

(** [var s []T] *)
Definition nil_slice : slice := Slice [] 0 0.

(** [s[i]] *)
Definition index (s : slice) (i : nat) : A := nth (off s + i) (arr s) zero.

(** [s[lo:]] *)
Definition slice_from (s : slice) (lo : nat) : slice :=
  Slice (arr s) (off s + lo) (len s - lo).

(** [append(s, x)] *)
Definition append (s : slice) (x : A) : slice :=
  if decide (len s < cap s)%nat
  then Slice (<[(off s + len s)%nat := x]> (arr s)) (off s) (S (len s))
  else Slice (view s ++ x :: replicate (spare (S (len s))) zero) 0 (S (len s)).

(** Line 79-81 of [downloadAllPages]:
    [if len(pages) > 0 { pages = append(pages[1:], pages[0]) }] *)
Definition rotate (pages : slice) : slice :=
  if decide (0 < len pages)%nat
  then append (slice_from pages 1) (index pages 0)
  else pages.
End Slices.

Arguments slice A : clear implicits.

(** ** The PDF library ([github.com/unidoc/unidoc/pdf]) *)

(** A page object: its content and its interactive annotations
    ([Annots], [None] for Go's [nil]). *)
Record PdfPage := { Contents : bytes; Annots : option bytes }.

(** [page.Annots = nil] *)
Definition clearAnnots (p : PdfPage) : PdfPage :=
  {| Contents := Contents p; Annots := None |}.

(** A parsed page container: what its methods answer. *)
Record PdfReader := {
  Decrypt : bytes → Res bool;
  GetNumPages : Res Z;
  GetPageAsPdfPage : Z → Res PdfPage
}.

(** [pdf.PdfWriter]: the page objects added so far, in order. *)
Definition PdfWriter := list PdfPage.

(** [pdf.NewPdfWriter()] *)
Definition NewPdfWriter : PdfWriter := [].

(** The type [page] is declared outside [main.go], which builds its values
    as [page{r}] from a reader [r] over the downloaded bytes and as
    [page{}], without a reader. *)
Record page := { reader : option bytes }.
Definition page_zero : page := {| reader := None |}.

(** [var pages []page] *)
Abbreviation pages_nil := (nil_slice : slice page).

(** ** Data model of the catalogue *)

Definition MagazineID := string.
Definition IssueID := string.

Record Session := { login : string; password : string; profileID : string }.

Record IssueMetadata := { iID : IssueID; iTitle : string }.

Record Magazine := { mID : MagazineID; mTitle : string; Issues : list IssueMetadata }.

(** [Issue] and its method [GetURL] are declared outside [main.go]; the
    method is carried by the record, so every derivation rule (failing or
    not) is covered. *)
Record Issue := {
  ID : IssueID;
  Title : string;
  Password : string;
  PageCount : Z;
  GetURL : Z → string * error
}.

(** ** The outside world *)

(** An HTTP response: its status code and what reading its body yields. *)
Record Response := { StatusCode : Z; Body : Res bytes }.

Inductive Node := File (content : bytes) | Dir.

Abbreviation FS := (gmap string Node).

(** Every call that leaves the process is recorded, together with its
    outcome.  [EvHttpGet] is a request that was sent; [EvCtxDone] is a call
    of [ctxhttp.Get] under a context that was already done, which returns
    the error of the context and sends nothing. *)
Inductive Event :=
| EvHttpGet (url : string) (err : error)
| EvCtxDone (url : string) (err : string)
| EvReadAll (r : Res bytes)
| EvGetIssue (magazine : MagazineID) (issue : IssueID) (err : error)
| EvMkdir (name : string) (err : error)
| EvCreate (name : string) (err : error)
| EvWrite (name : string) (err : error)
| EvClose (name : string) (err : error)
| EvRename (oldname newname : string) (err : error)
| EvInfo (magazine issue msg : string)
| EvError (msg : string).

(** The state threaded through the program: the filesystem and the trace
    of events so far, each with the filesystem as it was right after the
    event.  The length of the trace is the clock the oracles read. *)
Record World := { fs : FS; trace : list (Event * FS) }.

Definition now (w : World) : nat := length (trace w).

Definition emit (e : Event) (f : FS) (w : World) : World :=
  {| fs := f; trace := trace w ++ [(e, f)] |}.

(** A [context.Context], observed through [ctx.Err()] at a given time. *)
Definition Ctx := nat → error.

(** [context.Background()] *)
Definition Background : Ctx := λ _, None.

(** The answers of the outside world and of the libraries. *)
Record Env := {
  (** the transport behind [http.DefaultClient]: what becomes of a request
      sent at a given time, a cancellation or deadline that strikes while
      it is under way included *)
  http_Do : nat → string → Res Response;
  (** whether the 30 second deadline of [downloadPage] has passed already
      when the request is about to be sent *)
  timer : nat → bool;
  (** [session.GetIssue] *)
  session_GetIssue : nat → Session → MagazineID → IssueID → Res Issue;
  (** [pdf.NewPdfReader] *)
  NewPdfReader : page → Res PdfReader;
  (** [w.AddPage]: the error, if the page object is refused *)
  AddPage : PdfPage → error;
  (** the bytes [w.Write] produces for a document *)
  encode : PdfWriter → bytes;
  (** whether the filesystem call made at a given time fails (for
      [pdf.Write]: whether the writes it makes fail) *)
  fault : nat → error;
  (** how many bytes reach the file when a write fails *)
  short : nat → nat;
  (** whether [pdf.Write] keeps to itself the failure of the writes it
      makes at a given time, and returns [nil] *)
  silent : nat → bool;
  (** the error of [os.Stat] on a name it cannot even look up (a parent
      that cannot be searched, a component that is no directory) *)
  blocked : nat → string → error;
  (** [sanitize] (lines 28-37) rests on Unicode character classes and is
      taken as given *)
  sanitize : string → string;
  (** [path.Join] of two elements *)
  path_Join : string → string → string;
  (** spare capacity chosen by [append] when it reallocates *)
  growth : nat → nat
}.

(** The error of [os.Stat]: the name does not exist, or something else. *)
Inductive StatError := NotExist | StatOther (msg : string).

(** ** The state monad *)

Definition M (A : Type) : Type := World → A * World.

#[global] Instance M_ret : MRet M := λ A a w, (a, w).
#[global] Instance M_bind : MBind M :=
  λ A B k m w, let '(a, w') := m w in k a w'.

Definition err_of {A} (r : Res A) : error :=
  match r with Ok _ => None | Err e => Some e end.

Section Program.
Variable E : Env.

(** *** Primitive calls *)

(** [context.WithTimeout(ctx, 30*time.Second)] *)
Definition WithTimeout (ctx : Ctx) : Ctx := λ t,
  match ctx t with
  | Some e => Some e
  | None => if timer E t then Some "context deadline exceeded" else None
  end.

(** [ctxhttp.Get(ctx, http.DefaultClient, url)]: under a context that is
    done the transport returns before it sends anything. *)
Definition ctxhttp_Get (ctx : Ctx) (url : string) : M (Res Response) := λ w,
  match ctx (now w) with
  | Some e => (Err e, emit (EvCtxDone url e) (fs w) w)
  | None =>
      let r := http_Do E (now w) url in
      (r, emit (EvHttpGet url (err_of r)) (fs w) w)
  end.

(** [ioutil.ReadAll(resp.Body)] *)
Definition ioutil_ReadAll (body : Res bytes) : M (Res bytes) := λ w,
  (body, emit (EvReadAll body) (fs w) w).

(** [session.GetIssue(ctx, magazine, issue)] *)
Definition GetIssue (session : Session) (magazine : MagazineID) (issue : IssueID)
  : M (Res Issue) := λ w,
  let r := session_GetIssue E (now w) session magazine issue in
  (r, emit (EvGetIssue magazine issue (err_of r)) (fs w) w).

(** [os.Stat(name)], of which the program only uses the error: [nil] when
    the name is there; when it is not, the error says so, unless the name
    could not even be looked up. *)
Definition os_Stat (name : string) : M (option StatError) := λ w,
  (match fs w !! name with
   | Some _ => None
   | None =>
       match blocked E (now w) name with
       | Some e => Some (StatOther e)
       | None => Some NotExist
       end
   end, w).

(** [os.IsNotExist(err)] *)
Definition os_IsNotExist (err : option StatError) : bool :=
  match err with Some NotExist => true | _ => false end.

(** [os.Mkdir(name, 0755)]: fails when the name is taken. *)
Definition os_Mkdir (name : string) : M error := λ w,
  let err := match fault E (now w), fs w !! name with
             | Some e, _ => Some e
             | None, Some _ => Some ("mkdir " +:+ name +:+ ": file exists")
             | None, None => None
             end in
  (err, emit (EvMkdir name err)
          (match err with None => <[name := Dir]> (fs w) | Some _ => fs w end) w).

(** The error of [os.Create(name)] in the world [w], if any: a fault, or a
    directory in the way. *)
Definition Create_error (name : string) (w : World) : error :=
  match fault E (now w), fs w !! name with
  | Some e, _ => Some e
  | None, Some Dir => Some ("open " +:+ name +:+ ": is a directory")
  | None, _ => None
  end.

(** [os.Create(name)]: creates or truncates. The handle is the name. *)
Definition os_Create (name : string) : M error := λ w,
  let err := Create_error name w in
  (err, emit (EvCreate name err)
          (match err with None => <[name := File []]> (fs w) | Some _ => fs w end) w).

(** What [pdf.Write] leaves in the file at time [t]: the whole encoding
    when the writes go through, some prefix of it when they fail. *)
Definition written (t : nat) (doc : PdfWriter) : bytes :=
  match fault E t with
  | None => encode E doc
  | Some _ => take (short E t) (encode E doc)
  end.

(** What [pdf.Write] returns at time [t]: the failure of its writes,
    unless it keeps it to itself. *)
Definition Write_error (t : nat) : error :=
  match fault E t with
  | Some e => if silent E t then None else Some e
  | None => None
  end.

(** [pdf.Write(file)].  The library writes through a buffer and need not
    report that a write failed: what it returns and what reaches the file
    are two things.  A [nil] writer cannot be written. *)
Definition pdf_Write (pdf : option PdfWriter) (file : string) : M error := λ w,
  match pdf with
  | None => (Some "invalid memory address or nil pointer dereference", w)
  | Some doc =>
      let err := Write_error (now w) in
      (err, emit (EvWrite file err)
              (<[file := File (written (now w) doc)]> (fs w)) w)
  end.

(** [file.Close()] *)
Definition file_Close (file : string) : M error := λ w,
  let err := fault E (now w) in
  (err, emit (EvClose file err) (fs w) w).

(** [os.Rename(oldname, newname)]: all or nothing; it replaces what is at
    the new name, and fails when there is nothing at the old name. *)
Definition os_Rename (oldname newname : string) : M error := λ w,
  match fault E (now w), fs w !! oldname with
  | Some e, _ => (Some e, emit (EvRename oldname newname (Some e)) (fs w) w)
  | None, None =>
      let e := "rename " +:+ oldname +:+ ": no such file or directory" in
      (Some e, emit (EvRename oldname newname (Some e)) (fs w) w)
  | None, Some n =>
      (None, emit (EvRename oldname newname None)
               (<[newname := n]> (delete oldname (fs w))) w)
  end.

(** [entry.Info(msg)] with the fields [magazine] and [issue]. *)
Definition entry_Info (magazine issue msg : string) : M unit := λ w,
  (tt, emit (EvInfo magazine issue msg) (fs w) w).

(** [log.Error(err)] *)
Definition log_Error (err : error) : M unit := λ w,
  (tt, emit (EvError (default "<nil>" err)) (fs w) w).

(** *** [downloadPage] (lines 39-58) *)

Definition downloadPage (ctx : Ctx) (url : string) : M (page * error) :=
  let ctx := WithTimeout ctx in
  resp ← ctxhttp_Get ctx url;
  match resp with
  | Err e => mret (page_zero, Some e)
  | Ok resp =>
      b ← ioutil_ReadAll (Body resp);
      match b with
      | Err e => mret (page_zero, Some e)
      | Ok b => mret ({| reader := Some b |}, None)
      end
  end.

(** *** [downloadAllPages] (lines 60-84) *)

(** The loop of lines 63-77, with [n] iterations left and the counter at
    [i].  An error component means the function returned from inside the
    loop. *)
Fixpoint pagesLoop (ctx : Ctx) (issue : Issue) (n : nat) (i : Z)
    (pages : slice page) : M (slice page * error) :=
  match n with
  | O => mret (pages, None)
  | S n' =>
      let '(url, err) := GetURL issue i in
      match err with
      | Some _ => mret (pages_nil, err)
      | None =>
          '(page, err) ← downloadPage ctx url;
          match err with
          | Some _ =>
              mret (pages_nil, Wrapf err ("failed to download page " +:+ fmt_d i))
          | None =>
              pagesLoop ctx issue n' (i + 1)
                (append page_zero (growth E) pages page)
          end
      end
  end.

Definition downloadAllPages (ctx : Ctx) (issue : Issue) : M (slice page * error) :=
  '(pages, err) ← pagesLoop ctx issue (Z.to_nat (PageCount issue)) 0 pages_nil;
  match err with
  | Some _ => mret (pages_nil, err)
  | None => mret (rotate page_zero (growth E) pages, None)
  end.

(** *** [unlockAndMerge] (lines 169-211) *)

(** The loop of lines 195-207 over the sub-pages of one container. *)
Fixpoint subPagesLoop (r : PdfReader) (n : nat) (i : Z) (w : PdfWriter)
  : option PdfWriter * error :=
  match n with
  | O => (Some w, None)
  | S n' =>
      match GetPageAsPdfPage r (i + 1) with
      | Err e => (None, Some e)
      | Ok page =>
          let page := clearAnnots page in
          match AddPage E page with
          | Some e => (None, Some e)
          | None => subPagesLoop r n' (i + 1) (w ++ [page])
          end
      end
  end.

(** The loop of lines 172-208 over the containers. *)
Fixpoint containersLoop (pages : list page) (password : bytes) (w : PdfWriter)
  : option PdfWriter * error :=
  match pages with
  | [] => (Some w, None)
  | page :: rest =>
      match NewPdfReader E page with
      | Err e => (None, Some e)
      | Ok r =>
          match Decrypt r password with
          | Err e => (None, Some e)
          | Ok false =>
              (None, Errorf ("failed to decrypt pages using password "
                             +:+ string_of_list_byte password))
          | Ok true =>
              match GetNumPages r with
              | Err e => (None, Some e)
              | Ok numPages =>
                  match subPagesLoop r (Z.to_nat numPages) 0 w with
                  | (Some w', None) => containersLoop rest password w'
                  | (_, err) => (None, err)
                  end
              end
          end
      end
  end.

Definition unlockAndMerge (pages : slice page) (password : bytes)
  : option PdfWriter * error :=
  containersLoop (view pages) password NewPdfWriter.

(** *** [save] (lines 145-167) *)

Definition save (session : Session) (pages : slice page) (password : string)
    (path : string) : M error :=
  let '(pdf, err) := unlockAndMerge pages (list_byte_of_string password) in
  match err with
  | Some _ => mret (Wrapf err ("failed to unlock and merge pages for " +:+ path))
  | None =>
      let temp := path +:+ ".part" in
      err ← os_Create temp;
      match err with
      | Some _ => mret (Wrapf err ("failed to create " +:+ path))
      | None =>
          let file := temp in
          err ← pdf_Write pdf file;
          cerr ← file_Close file;
          if bool_decide (err ≠ None ∨ cerr ≠ None)
          then mret (Wrapf err ("failed to save " +:+ path))
          else
            rerr ← os_Rename temp path;
            mret (Wrapf rerr ("failed to save " +:+ path))
      end
  end.

(** *** [downloadAllIssues] (lines 86-143) *)

(** The function literal of lines 111-134. *)
Definition issueFunc (ctx : Ctx) (session : Session) (magazine : Magazine)
    (metadata : IssueMetadata) (path : string) : M error :=
  let entry := entry_Info (mTitle magazine) (iTitle metadata) in
  entry "downloading issue metadata";;
  issue ← GetIssue session (mID magazine) (iID metadata);
  match issue with
  | Err e => mret (Some e)
  | Ok issue =>
      entry "downloading issue";;
      '(pages, err) ← downloadAllPages ctx issue;
      match err with
      | Some _ =>
          mret (Wrapf err ("failed to download " +:+ mTitle magazine
                           +:+ " " +:+ iTitle metadata))
      | None =>
          entry "saving issue";;
          err ← save session pages (Password issue) path;
          match err with
          | Some _ => mret err
          | None => mret None
          end
      end
  end.

(** One iteration of the loop of lines 97-139. *)
Definition issueBody (ctx : Ctx) (session : Session) (magazine : Magazine)
    (dir : string) (metadata : IssueMetadata) : M unit :=
  let file := sanitize E (iTitle metadata) in
  let path := path_Join E dir (file +:+ ".pdf") in
  err ← os_Stat path;
  match err with
  | None => entry_Info (mTitle magazine) (iTitle metadata) "issue already downloaded"
  | Some _ =>
      err ← issueFunc ctx session magazine metadata path;
      match err with
      | Some _ => log_Error err
      | None => mret tt
      end
  end.

Fixpoint issuesLoop (ctx : Ctx) (session : Session) (magazine : Magazine)
    (dir : string) (issues : list IssueMetadata) : M unit :=
  match issues with
  | [] => mret tt
  | metadata :: rest =>
      issueBody ctx session magazine dir metadata;;
      issuesLoop ctx session magazine dir rest
  end.

(** One iteration of the loop of lines 87-140. *)
Definition magazineBody (ctx : Ctx) (session : Session) (magazine : Magazine)
  : M unit :=
  let dir := sanitize E (mTitle magazine) in
  err ← os_Stat dir;
  ready ← (if os_IsNotExist err
           then
             err ← os_Mkdir dir;
             match err with
             | Some _ =>
                 log_Error (Wrapf err ("failed to create directory "
                                       +:+ mTitle magazine));;
                 mret false
             | None => mret true
             end
           else mret true);
  if ready : bool
  then issuesLoop ctx session magazine dir (Issues magazine)
  else mret tt.

Fixpoint magazinesLoop (ctx : Ctx) (session : Session) (magazines : list Magazine)
  : M unit :=
  match magazines with
  | [] => mret tt
  | magazine :: rest =>
      magazineBody ctx session magazine;;
      magazinesLoop ctx session rest
  end.

Definition downloadAllIssues (ctx : Ctx) (session : Session)
    (magazines : list Magazine) : M error :=
  magazinesLoop ctx session magazines;;
  mret None.

End Program.

(** ** Vocabulary of the statements *)

(** A page fetch started at time [t] goes through and yields the body [b]:
    the context is live, the request is answered and the body is read to
    its end. *)
Definition fetch_ok (E : Env) (ctx : Ctx) (t : nat) (url : string) (b : bytes) : Prop :=
  WithTimeout E ctx t = None ∧
  ∃ resp, http_Do E t url = Ok resp ∧ Body resp = Ok b.

(** The events a computation added when it took the world from [w] to
    [w']. *)
Definition new_events (w w' : World) : list Event :=
  map fst (drop (now w) (trace w')).

Definition is_fetch (e : Event) : bool :=
  match e with EvHttpGet _ _ | EvCtxDone _ _ => true | _ => false end.

(** The number of page fetches attempted in a list of events. *)
Definition fetches (l : list Event) : nat := length (List.filter is_fetch l).

(** A fetch that failed: the request, or the reading of the body. *)
Definition fetch_failed (e : Event) : bool :=
  match e with
  | EvHttpGet _ (Some _) => true
  | EvCtxDone _ _ => true
  | EvReadAll (Err _) => true
  | _ => false
  end.

(** Calls that change the filesystem. *)
Definition touches_fs (e : Event) : bool :=
  match e with
  | EvMkdir _ _ | EvCreate _ _ | EvWrite _ _ | EvClose _ _ | EvRename _ _ _ => true
  | _ => false
  end.

(** [w'] continues [w] with the events [l]. *)
Definition continues (w : World) (l : list (Event * FS)) (w' : World) : Prop :=
  trace w' = trace w ++ l.

(** Calls made to fetch a page. *)
Definition is_net (e : Event) : bool :=
  match e with EvHttpGet _ _ | EvCtxDone _ _ | EvReadAll _ => true | _ => false end.

(** Calls made by [save] on files. *)
Definition is_file_call (e : Event) : bool :=
  match e with
  | EvCreate _ _ | EvWrite _ _ | EvClose _ _ | EvRename _ _ _ => true
  | _ => false
  end.

Definition is_GetIssue (e : Event) : bool :=
  match e with EvGetIssue _ _ _ => true | _ => false end.

(** Events the processing of the issue titled [I] of the magazine titled
    [M] may produce: its own log lines, calls, and errors. *)
Definition by_issue (M I : string) (e : Event) : Prop :=
  match e with
  | EvInfo m i _ => m = M ∧ i = I
  | EvMkdir _ _ => False
  | _ => True
  end.

(** The final path of an issue (lines 88, 98-99). *)
Definition issue_path (E : Env) (magazine : Magazine) (metadata : IssueMetadata)
  : string :=
  path_Join E (sanitize E (mTitle magazine)) (sanitize E (iTitle metadata) +:+ ".pdf").


(** The log line with which the loop takes up an issue: either it is
    skipped, or its processing starts. *)
Definition is_turn (e : Event) : bool :=
  match e with
  | EvInfo _ _ msg =>
      bool_decide (msg = "issue already downloaded"
                   ∨ msg = "downloading issue metadata")
  | _ => false
  end.

(** A computation keeps [Inv] and only produces events that satisfy
    [Good]. *)
Definition preserves {A} (Inv : World → Prop) (Good : Event → Prop) (c : M A) : Prop :=
  ∀ w, Inv w →
       Inv (snd (c w))
       ∧ ∃ l, continues w l (snd (c w)) ∧ Forall (λ x, Good (fst x)) l.

(** The file of the issue [metadata] of [magazine] is there, with the
    content [n]. *)
Definition file_kept (E : Env) (magazine : Magazine) (metadata : IssueMetadata)
    (n : Node) (w : World) : Prop :=
  fs w !! issue_path E magazine metadata = Some n.

(** The only thing an event may say about the issue is that it is
    skipped. *)
Definition only_skip_logged (magazine : Magazine) (metadata : IssueMetadata)
    (e : Event) : Prop :=
  ∀ msg, e = EvInfo (mTitle magazine) (iTitle metadata) msg →
         msg = "issue already downloaded".

(** ** The merge stage, in the words of the specification

    The output document is made of the sub-pages of every container, the
    containers in the order they are given and the sub-pages of a container
    by ascending index counted from 1, each with its annotations cleared. *)

(** Sub-page [i] of an opened container, annotations cleared, provided the
    writer takes it. *)
Definition sub_page_at (E : Env) (r : PdfReader) (i : nat) : option PdfPage :=
  match GetPageAsPdfPage r (Z.of_nat i) with
  | Ok sp =>
      match AddPage E (clearAnnots sp) with
      | None => Some (clearAnnots sp)
      | Some _ => None
      end
  | Err _ => None
  end.

(** The contribution of one container, when it parses, opens with the
    password and gives up all its sub-pages. *)
Definition merge_container (E : Env) (password : bytes) (p : page)
  : option (list PdfPage) :=
  match NewPdfReader E p with
  | Ok r =>
      match Decrypt r password, GetNumPages r with
      | Ok true, Ok n => mapM (sub_page_at E r) (seq 1 (Z.to_nat n))
      | _, _ => None
      end
  | Err _ => None
  end.

Definition merge_spec (E : Env) (password : bytes) (pages : list page)
  : option (list PdfPage) :=
  match mapM (merge_container E password) pages with
  | Some ls => Some (concat ls)
  | None => None
  end.

(** The run over [pages] comes to a container that parses and turns the
    password down, every container before it having been merged. *)
Fixpoint rejected (E : Env) (password : bytes) (pages : list page) : bool :=
  match pages with
  | [] => false
  | p :: rest =>
      match NewPdfReader E p with
      | Ok r =>
          match Decrypt r password with
          | Ok false => true
          | Ok true =>
              match merge_container E password p with
              | Some _ => rejected E password rest
              | None => false
              end
          | Err _ => false
          end
      | Err _ => false
      end
  end.

(** The text of the decryption failure of line 186. *)
Definition decrypt_failure (password : string) : string :=
  "failed to decrypt pages using password " +:+ password.

(** ** Concrete worlds for the examples *)

Definition empty_world : World := {| fs := ∅; trace := [] |}.

(** A container of [n] sub-pages that opens with the password [pw] only;
    sub-page [i] holds the bytes of the container followed by the byte [i],
    and carries annotations. *)
Definition demo_reader (n : Z) (pw : string) (container : bytes) : PdfReader :=
  {| Decrypt := λ p, Ok (bool_decide (string_of_list_byte p = pw));
     GetNumPages := Ok n;
     GetPageAsPdfPage := λ i,
       Ok {| Contents := container ++ [default Byte.x00 (Byte.of_N (Z.to_N i))];
             Annots := Some [Byte.x61] |} |}.

Definition demo_issue (count : Z) : Issue :=
  {| ID := "42"; Title := "Sample"; Password := "secret"; PageCount := count;
     GetURL := λ i, ("u" +:+ fmt_d i, None) |}.

(** A world in which every URL answers with the given status and its own
    name as body, every container holds [subpages] sub-pages and opens with
    "secret", every issue has three pages, and filesystem calls fail as
    [flt] says. *)
Definition demo_env_of (subpages : Z) (status : Z) (flt : nat → error) : Env :=
  {| http_Do := λ _ u, Ok {| StatusCode := status; Body := Ok (list_byte_of_string u) |};
     timer := λ _, false;
     session_GetIssue := λ _ _ _ _, Ok (demo_issue 3);
     NewPdfReader := λ p, Ok (demo_reader subpages "secret" (default [] (reader p)));
     AddPage := λ _, None;
     encode := λ w, concat (map Contents w);
     fault := flt;
     short := λ _, 0%nat;
     silent := λ _, false;
     blocked := λ _ _, None;
     sanitize := λ s, s;
     path_Join := λ a b, a +:+ "/" +:+ b;
     growth := λ n, n |}.

Definition demo_env : Z → (nat → error) → Env := demo_env_of 1.

Definition no_fault : nat → error := λ _, None.

(** Only the filesystem call made at time [t] fails. *)
Definition fault_at (t : nat) (msg : string) : nat → error :=
  λ t', if decide (t' = t) then Some msg else None.

(** A context that was cancelled before the run. *)
Definition cancelled : Ctx := λ _, Some "context canceled".

Definition demo_session : Session :=
  {| login := "reader@example.com"; password := "pw"; profileID := "7" |}.

(** The same world, except that [session.GetIssue] answers [r]. *)
Definition with_GetIssue (r : Res Issue) (E : Env) : Env :=
  {| http_Do := http_Do E; timer := timer E;
     session_GetIssue := λ _ _ _ _, r;
     NewPdfReader := NewPdfReader E; AddPage := AddPage E; encode := encode E;
     fault := fault E; short := short E; silent := silent E;
     blocked := blocked E; sanitize := sanitize E;
     path_Join := path_Join E; growth := growth E |}.

(** The same world, except that [pdf.Write] never reports a write that
    failed, of which [n] bytes reach the file. *)
Definition with_quiet_writes (n : nat) (E : Env) : Env :=
  {| http_Do := http_Do E; timer := timer E;
     session_GetIssue := session_GetIssue E;
     NewPdfReader := NewPdfReader E; AddPage := AddPage E; encode := encode E;
     fault := fault E; short := λ _, n; silent := λ _, true;
     blocked := blocked E; sanitize := sanitize E;
     path_Join := path_Join E; growth := growth E |}.

(** The same world, except that the server behind the URL [bad] cannot be
    reached. *)
Definition with_broken_url (bad : string) (E : Env) : Env :=
  {| http_Do := λ t u, if decide (u = bad) then Err "connection refused"
                       else http_Do E t u;
     timer := timer E;
     session_GetIssue := session_GetIssue E;
     NewPdfReader := NewPdfReader E; AddPage := AddPage E; encode := encode E;
     fault := fault E; short := short E; silent := silent E;
     blocked := blocked E; sanitize := sanitize E;
     path_Join := path_Join E; growth := growth E |}.


(** A library of one magazine with two issues. *)
Definition demo_magazine : Magazine :=
  {| mID := "m1"; mTitle := "Mag";
     Issues := [ {| iID := "i1"; iTitle := "One" |};
                 {| iID := "i2"; iTitle := "Two" |} ] |}.

(** A disk on which the first issue of [demo_magazine] is already there. *)
Definition stocked_world : World :=
  {| fs := <["Mag/One.pdf" := File [Byte.x25; Byte.x50; Byte.x44; Byte.x46]]>
             (<["Mag" := Dir]> ∅);
     trace := [] |}.

(** One downloaded page, and two, as [downloadAllPages] would hand them
    over. *)
Definition demo_pages : slice page :=
  append page_zero (λ n, n) pages_nil {| reader := Some [Byte.x25] |}.

Definition demo_two_pages : slice page :=
  append page_zero (λ n, n)
    (append page_zero (λ n, n) pages_nil {| reader := Some [Byte.x41] |})
    {| reader := Some [Byte.x42] |}.

(** ** [sanitize] (lines 28-37)

    The regular expressions of [sanitize] read a name rune by rune, so the
    name is taken here as the sequence of its runes (code points).  The
    Unicode tables behind [\p{L}], [\p{N}] and [unicode.IsSpace] are
    parameters. *)
Module Sanitize.

Definition rune := Z.

Section Tables.
(** [\p{L}], [\p{N}] and [unicode.IsSpace] *)
Variables (L N IsSpace : rune → bool).

(** [strings.NewReplacer("/", " - ", ":", " - ").Replace(name)] *)
Definition Replace (s : list rune) : list rune :=
  flat_map (λ r, if (r =? 47)%Z || (r =? 58)%Z then [32; 45; 32] else [r]) s.

(** [\s] of the regexp syntax: tab, newline, form feed, carriage return,
    space. *)
Definition re_s (r : rune) : bool :=
  (r =? 9)%Z || (r =? 10)%Z || (r =? 12)%Z || (r =? 13)%Z || (r =? 32)%Z.

(** The characters [' ! & , . @ -] *)
Definition listed (r : rune) : bool :=
  (r =? 39)%Z || (r =? 33)%Z || (r =? 38)%Z || (r =? 44)%Z || (r =? 46)%Z || (r =? 64)%Z
  || (r =? 45)%Z.

(** What the class of [invalidChars] leaves out, and the class itself. *)
Definition kept (r : rune) : bool := L r || N r || re_s r || listed r.
Definition invalidChars (r : rune) : bool := negb (kept r).

(** [invalidChars.ReplaceAllString(s, " ")] *)
Definition replaceInvalid (s : list rune) : list rune :=
  map (λ r, if invalidChars r then 32 else r) s.

(** [whiteSpaces.ReplaceAllString(s, " ")]: every maximal run of [\s]
    becomes one space; [in_run] says that the rune before was part of a
    run. *)
Fixpoint collapse (in_run : bool) (s : list rune) : list rune :=
  match s with
  | [] => []
  | r :: rest =>
      if re_s r
      then if in_run then collapse true rest else 32 :: collapse true rest
      else r :: collapse false rest
  end.

(** [strings.TrimLeftFunc(s, unicode.IsSpace)] *)
Fixpoint TrimLeft (s : list rune) : list rune :=
  match s with
  | [] => []
  | r :: rest => if IsSpace r then TrimLeft rest else s
  end.

(** [strings.TrimRightFunc(s, unicode.IsSpace)] *)
Fixpoint TrimRight (s : list rune) : list rune :=
  match s with
  | [] => []
  | r :: rest =>
      match TrimRight rest with
      | [] => if IsSpace r then [] else [r]
      | t => r :: t
      end
  end.

(** [strings.TrimSpace(s)] *)
Definition TrimSpace (s : list rune) : list rune := TrimRight (TrimLeft s).

Definition sanitize (name : list rune) : list rune :=
  let s := Replace name in
  let s := replaceInvalid s in
  let s := collapse false s in
  let s := TrimSpace s in
  s.

(** No two runes of [\s] side by side. *)
Fixpoint single_spaced (s : list rune) : bool :=
  match s with
  | a :: rest =>
      match rest with
      | b :: _ => negb (re_s a && re_s b) && single_spaced rest
      | [] => true
      end
  | [] => true
  end.

End Tables.

(** Tables for the names of the examples: the letters and digits of
    ASCII. *)
Definition ascii_L (r : rune) : bool :=
  ((65 <=? r)%Z && (r <=? 90)%Z) || ((97 <=? r)%Z && (r <=? 122)%Z).
Definition ascii_N (r : rune) : bool := (48 <=? r)%Z && (r <=? 57)%Z.
Definition ascii_IsSpace (r : rune) : bool :=
  (r =? 9)%Z || (r =? 10)%Z || (r =? 11)%Z || (r =? 12)%Z || (r =? 13)%Z || (r =? 32)%Z.

End Sanitize.

(** ** [main] (lines 213-253) *)

(** How [flag.Parse] (line 219) ends.  The command line is parsed with
    [flag.ExitOnError]: on an argument it rejects, and on [-h] or [-help],
    the flag package prints its message and the usage text and ends the
    process itself: with status 2 on a flag it cannot parse, and on a
    request for help with the status of the release of Go at hand (2, or 0
    in later releases). *)
Inductive ParseOutcome := Parsed | BadFlag | Help (status : Z).

(** What [main] finds when it starts: how [flag.Parse] ends, the values of
    the flags [-email] and [-password] when it returns, and the
    environment. *)
Record Shell := {
  flag_Parse : ParseOutcome;
  flag_email : string;
  flag_password : string;
  os_Getenv : string → string
}.

(** The two calls [main] makes on the service, declared outside [main.go]:
    [Login] and [session.GetMagazines]. *)
Record Service := {
  Login : string → string → Res Session;
  GetMagazines : Session → Res (list Magazine)
}.

(** What [main] itself says and asks, in order. *)
Inductive MainEvent :=
| MUsage
| MInfoUser (user msg : string)
| MInfo (msg : string)
| MLogin (login password : string) (err : error)
| MGetMagazines (err : error)
| MFatal (msg : string).

(** [main] returns the exit status of the process (that of [flag.Parse]
    when it ends the process, [os.Exit(1)] after the usage text and in
    [log.Fatal], 0 when [main] returns) and what it said. *)
Definition main (S : Service) (E : Env) (sh : Shell)
  : World → (Z * list MainEvent) * World := λ w,
  match flag_Parse sh with
  | BadFlag => ((2, [MUsage]), w)
  | Help status => ((status, [MUsage]), w)
  | Parsed =>
  let login := flag_email sh in
  let password := flag_password sh in
  let login := if decide (login = "") then os_Getenv sh "ZINIO_EMAIL" else login in
  let password :=
    if decide (password = "") then os_Getenv sh "ZINIO_PASSWORD" else password in
  if bool_decide (login = "" ∨ password = "")
  then ((1, [MUsage]), w)
  else
    let ctx := Background in
    let said := [MInfoUser login "logging in"] in
    match Login S login password with
    | Err e => ((1, said ++ [MLogin login password (Some e); MFatal e]), w)
    | Ok session =>
        let said := said ++ [MLogin login password None;
                             MInfo "downloading list of all magazines"] in
        match GetMagazines S session with
        | Err e => ((1, said ++ [MGetMagazines (Some e); MFatal e]), w)
        | Ok magazines =>
            let said := said ++ [MGetMagazines None] in
            let '(err, w') := downloadAllIssues E ctx session magazines w in
            match err with
            | Some e => ((1, said ++ [MFatal e]), w')
            | None => ((0, said), w')
            end
        end
    end
  end.

(** A credential as [main] settles it: the flag, or the environment
    variable when the flag is empty. *)
Definition credential (flag env : string) : string :=
  if decide (flag = "") then env else flag.

(** ** Vocabulary of the further properties *)

(** The URLs requested in a list of events, in order. *)
Definition request_url (e : Event) : option string :=
  match e with EvHttpGet u _ => Some u | _ => None end.

Definition requests (l : list Event) : list string := omap request_url l.

(** The number of sub-pages a container announces, 0 when it does not
    parse or cannot say. *)
Definition container_pages (E : Env) (p : page) : nat :=
  match NewPdfReader E p with
  | Ok r => match GetNumPages r with Ok n => Z.to_nat n | Err _ => 0%nat end
  | Err _ => 0%nat
  end.

(** The names a run over [magazines] may create or change: the directory
    of a magazine, the final path of an issue, its temporary path. *)
Definition batch_names (E : Env) (magazines : list Magazine) : list string :=
  flat_map (λ m, sanitize E (mTitle m)
                 :: flat_map (λ i, [issue_path E m i; issue_path E m i +:+ ".part"])
                      (Issues m))
    magazines.

(** The temporary paths of a batch. *)
Definition batch_temps (E : Env) (magazines : list Magazine) : list string :=
  flat_map (λ m, map (λ i, issue_path E m i +:+ ".part") (Issues m)) magazines.

(** The lines with which a run takes up the issues, as pairs of titles. *)
Definition turn_of (e : Event) : option (string * string) :=
  match e with
  | EvInfo m i msg =>
      if bool_decide (msg = "issue already downloaded"
                      ∨ msg = "downloading issue metadata")
      then Some (m, i) else None
  | _ => None
  end.

Definition turns (l : list Event) : list (string * string) := omap turn_of l.

(** The issues of a batch, as pairs of titles, in the order of the
    catalogue. *)
Definition batch_issues (magazines : list Magazine) : list (string * string) :=
  flat_map (λ m, map (λ i, (mTitle m, iTitle i)) (Issues m)) magazines.

(** Every directory and every file of the batch is there. *)
Definition on_disk (E : Env) (magazines : list Magazine) (w : World) : Prop :=
  ∀ m, m ∈ magazines →
       is_Some (fs w !! sanitize E (mTitle m))
       ∧ ∀ i, i ∈ Issues m → is_Some (fs w !! issue_path E m i).

(** The lines of a run that skips every issue, over the filesystem [f]. *)
Definition skip_lines (magazines : list Magazine) (f : FS) : list (Event * FS) :=
  map (λ mi, (EvInfo (fst mi) (snd mi) "issue already downloaded", f))
      (batch_issues magazines).

(** A directory could not be created. *)
Definition mkdir_failed (e : Event) : bool :=
  match e with EvMkdir _ (Some _) => true | _ => false end.

(** The URLs of the page fetches attempted in a list of events, in order:
    the requests sent, and the calls given up because the context was
    done. *)
Definition attempt_url (e : Event) : option string :=
  match e with
  | EvHttpGet u _ | EvCtxDone u _ => Some u
  | _ => None
  end.

Definition attempts (l : list Event) : list string := omap attempt_url l.



(** ** Tactics *)

(** Unfold the monad. *)
Ltac unfold_M := unfold mbind, M_bind, mret, M_ret in *.

(** Membership in a list written out: split a hypothesis into its cases,
    or find the element. *)
Ltac mem_cases H :=
  repeat (apply elem_of_cons in H as [H|H]);
  try (by apply elem_of_nil in H).

Ltac mem_solve :=
  repeat first [ by apply elem_of_cons; left | apply elem_of_cons; right ].

(** * Properties *)

(** ** Slices: what [append] and the rotation of line 80 do to the view *)

Section SliceFacts.
Context {A : Type} (zero : A) (spare : nat → nat).
Implicit Types (s : slice A) (x : A).

Lemma wf_nil_slice : wf (@nil_slice A).
Proof. unfold wf; simpl; lia. Qed.

Lemma length_view s : wf s → length (view s) = len s.
Proof.
  unfold wf, view. intros Hwf.
  rewrite length_take, length_drop. lia.
Qed.

Lemma len_append s x : len (append zero spare s x) = S (len s).
Proof. unfold append. by case_decide. Qed.

Lemma wf_append s x : wf s → wf (append zero spare s x).
Proof.
  unfold wf, append, cap. intros Hwf. case_decide; simpl.
  - rewrite length_insert. lia.
  - rewrite length_app. simpl. rewrite length_replicate.
    pose proof (length_view s Hwf). lia.
Qed.

(** Appending never disturbs the elements already in view, whether it
    writes in place or reallocates. *)
Lemma view_append s x : wf s → view (append zero spare s x) = view s ++ [x].
Proof.
  intros Hwf. pose proof (length_view s Hwf) as Hlen.
  unfold append, cap. case_decide as Hcap; unfold view at 1; simpl.
  - rewrite drop_insert_ge by lia.
    replace (off s + len s - off s)%nat with (len s) by lia.
    rewrite (take_S_r _ _ x).
    + rewrite take_insert_ge by lia. done.
    + apply list_lookup_insert_eq. rewrite length_drop. lia.
  - rewrite (app_assoc _ [x] _ : view s ++ x :: _ = (view s ++ [x]) ++ _).
    apply take_app_length'. rewrite length_app. simpl. lia.
Qed.

Lemma wf_slice_from s : (0 < len s)%nat → wf s → wf (slice_from s 1).
Proof. unfold wf, slice_from; simpl. lia. Qed.

Lemma view_slice_from s : view (slice_from s 1) = drop 1 (view s).
Proof.
  unfold view, slice_from; simpl.
  rewrite <- (drop_drop (arr s) 1 (off s)).
  generalize (drop (off s) (arr s)). intros l.
  destruct (len s) as [|n].
  - by destruct l.
  - replace (S n - 1)%nat with n by lia.
    by rewrite take_drop_commute.
Qed.

Lemma index_head s : (0 < len s)%nat → wf s → head (view s) = Some (index zero s 0).
Proof.
  unfold wf, view, index. intros Hpos Hwf.
  rewrite Nat.add_0_r, nth_lookup, head_lookup.
  rewrite lookup_take_lt by lia.
  rewrite lookup_drop, Nat.add_0_r.
  destruct (arr s !! off s) eqn:Hl; [done|].
  apply lookup_ge_None in Hl. lia.
Qed.

(** The rotation moves the first element behind the others. *)
Lemma view_rotate s :
  wf s →
  view (rotate zero spare s) =
    match view s with
    | [] => []
    | p0 :: rest => rest ++ [p0]
    end.
Proof.
  intros Hwf. pose proof (length_view s Hwf) as Hlen.
  unfold rotate. case_decide as Hpos.
  - rewrite view_append by (by apply wf_slice_from).
    rewrite view_slice_from.
    pose proof (index_head s Hpos Hwf) as Hh.
    destruct (view s) as [|p0 rest]; simpl in *; [lia|].
    rewrite drop_0. congruence.
  - destruct (view s); simpl in *; [done | lia].
Qed.
End SliceFacts.

(** ** Bookkeeping on worlds *)

Lemma now_emit e f w : now (emit e f w) = S (now w).
Proof. unfold now, emit; simpl. rewrite length_app. simpl. lia. Qed.

Lemma continues_refl w : continues w [] w.
Proof. unfold continues. by rewrite app_nil_r. Qed.

Lemma continues_emit e f w : continues w [(e, f)] (emit e f w).
Proof. reflexivity. Qed.

Lemma continues_trans w l1 w1 l2 w2 :
  continues w l1 w1 → continues w1 l2 w2 → continues w (l1 ++ l2) w2.
Proof. unfold continues. intros -> ->. by rewrite app_assoc. Qed.

Lemma continues_new_events w l w' : continues w l w' → new_events w w' = map fst l.
Proof.
  unfold continues, new_events, now. intros ->. by rewrite drop_app_length.
Qed.

(** ** [downloadPage] *)

Section DownloadPage.
Variable E : Env.

(** The four ways through [downloadPage]. *)
Lemma downloadPage_eq ctx url w :
  downloadPage E ctx url w =
    match WithTimeout E ctx (now w) with
    | Some e => ((page_zero, Some e), emit (EvCtxDone url e) (fs w) w)
    | None =>
        match http_Do E (now w) url with
        | Err e => ((page_zero, Some e), emit (EvHttpGet url (Some e)) (fs w) w)
        | Ok resp =>
            let w1 := emit (EvHttpGet url None) (fs w) w in
            match Body resp with
            | Err e => ((page_zero, Some e), emit (EvReadAll (Err e)) (fs w) w1)
            | Ok b => (({| reader := Some b |}, None),
                       emit (EvReadAll (Ok b)) (fs w) w1)
            end
        end
    end.
Proof.
  unfold downloadPage, ctxhttp_Get, ioutil_ReadAll. unfold_M.
  destruct (WithTimeout E ctx (now w)); [done|].
  destruct (http_Do E (now w) url) as [resp|e]; [|done].
  simpl. by destruct (Body resp).
Qed.

Lemma downloadPage_ok ctx url w b :
  fetch_ok E ctx (now w) url b →
  downloadPage E ctx url w =
    (({| reader := Some b |}, None),
     emit (EvReadAll (Ok b)) (fs w) (emit (EvHttpGet url None) (fs w) w)).
Proof.
  intros [Hctx (resp & Hdo & Hbody)].
  rewrite downloadPage_eq, Hctx, Hdo. simpl. by rewrite Hbody.
Qed.
End DownloadPage.

(** C5, as stated, fails: a response with status 404 is not an error for
    [downloadPage]; its body is returned like any other. *)
Lemma downloadPage_status_404_is_no_error :
  http_Do (demo_env 404 no_fault) (now empty_world) "u0"
    = Ok {| StatusCode := 404; Body := Ok (list_byte_of_string "u0") |}
  ∧ fst (downloadPage (demo_env 404 no_fault) Background "u0" empty_world)
    = ({| reader := Some (list_byte_of_string "u0") |}, None).
Proof. split; reflexivity. Qed.

(** C5 (amended): [downloadPage] returns an error, and the empty page,
    whenever the context is cancelled or past its deadline (the 30 second
    timer included), the request fails, or reading the body fails; in every
    other case, whatever the status code of the response, it returns the
    whole body and no error. *)
Theorem downloadPage_error_or_full_body E ctx url w :
  (∀ e, WithTimeout E ctx (now w) = Some e →
        fst (downloadPage E ctx url w) = (page_zero, Some e))
  ∧ (∀ e, WithTimeout E ctx (now w) = None →
          http_Do E (now w) url = Err e →
          fst (downloadPage E ctx url w) = (page_zero, Some e))
  ∧ (∀ resp e, WithTimeout E ctx (now w) = None →
               http_Do E (now w) url = Ok resp → Body resp = Err e →
               fst (downloadPage E ctx url w) = (page_zero, Some e))
  ∧ (∀ resp b, WithTimeout E ctx (now w) = None →
               http_Do E (now w) url = Ok resp → Body resp = Ok b →
               fst (downloadPage E ctx url w) = ({| reader := Some b |}, None)).
Proof.
  rewrite downloadPage_eq. repeat split.
  - by intros e ->.
  - by intros e -> ->.
  - intros resp e -> -> Hb. simpl. by rewrite Hb.
  - intros resp b -> -> Hb. simpl. by rewrite Hb.
Qed.

(** ** [downloadAllPages]: the order of the pages *)

Section Sequencing.
Variable E : Env.
Variable ctx : Ctx.
Variable issue : Issue.
(** The URL and the body of page [i]. *)
Variables (u : nat → string) (b : nat → bytes).

(** When the [n] fetches from index [i0] on succeed, the loop appends
    their pages, in index order, to what it had. *)
Lemma pagesLoop_all_ok n : ∀ i0 pages w,
  wf pages →
  (∀ k, (k < n)%nat →
        GetURL issue (Z.of_nat (i0 + k)) = (u (i0 + k)%nat, None)
        ∧ fetch_ok E ctx (now w + 2 * k) (u (i0 + k)%nat) (b (i0 + k)%nat)) →
  ∃ pages' w',
    pagesLoop E ctx issue n (Z.of_nat i0) pages w = ((pages', None), w')
    ∧ wf pages'
    ∧ view pages' = view pages ++ map (λ i, {| reader := Some (b i) |}) (seq i0 n).
Proof.
  induction n as [|n IH]; intros i0 pages w Hwf Hall.
  - exists pages, w. simpl. by rewrite app_nil_r.
  - destruct (Hall 0%nat ltac:(lia)) as [Hurl Hfetch].
    rewrite Nat.add_0_r in Hurl. rewrite Nat.mul_0_r, !Nat.add_0_r in Hfetch.
    cbn [pagesLoop]. rewrite Hurl. unfold_M.
    rewrite (downloadPage_ok E ctx _ _ _ Hfetch).
    replace (Z.of_nat i0 + 1) with (Z.of_nat (S i0)) by lia.
    set (w2 := emit _ _ (emit _ _ w)).
    destruct (IH (S i0) (append page_zero (growth E) pages {| reader := Some (b i0) |}) w2)
      as (pages' & w' & Hrun & Hwf' & Hview).
    + by apply wf_append.
    + intros k Hk. destruct (Hall (S k) ltac:(lia)) as [Hu Hf].
      replace (S i0 + k)%nat with (i0 + S k)%nat by lia.
      split; [done|].
      replace (now w2 + 2 * k)%nat with (now w + 2 * S k)%nat; [done|].
      unfold w2. rewrite !now_emit. lia.
    + exists pages', w'. split; [done|]. split; [done|].
      rewrite Hview, view_append by done.
      by rewrite <- app_assoc.
Qed.
End Sequencing.

(** C1: when every URL derivation and every fetch of an issue succeeds,
    [downloadAllPages] returns, without error, the fetched pages rotated
    left by one: pages 1, 2, ..., N-1 followed by page 0; and nothing when
    there is no page to fetch. *)
Theorem downloadAllPages_rotates_left E ctx issue w (u : nat → string) (b : nat → bytes) :
  (∀ i, (i < Z.to_nat (PageCount issue))%nat →
        GetURL issue (Z.of_nat i) = (u i, None)
        ∧ fetch_ok E ctx (now w + 2 * i) (u i) (b i)) →
  ∃ pages w',
    downloadAllPages E ctx issue w = ((pages, None), w')
    ∧ view pages =
        map (λ i, {| reader := Some (b i) |})
            (match Z.to_nat (PageCount issue) with
             | O => []
             | S m => seq 1 m ++ [0%nat]
             end).
Proof.
  intros Hall.
  destruct (pagesLoop_all_ok E ctx issue u b (Z.to_nat (PageCount issue))
              0%nat pages_nil w wf_nil_slice Hall)
    as (pages & w' & Hrun & Hwf & Hview).
  exists (rotate page_zero (growth E) pages), w'.
  unfold downloadAllPages. unfold_M.
  change (Z.of_nat 0) with 0 in Hrun. rewrite Hrun. split; [done|].
  rewrite view_rotate, Hview by done. simpl.
  destruct (Z.to_nat (PageCount issue)) as [|m]; [done|].
  simpl. by rewrite map_app.
Qed.

(** The scenario of three pages [u0], [u1], [u2]. *)
Lemma downloadAllPages_rotates_left_sample :
  ∃ pages w',
    downloadAllPages (demo_env 200 no_fault) Background (demo_issue 3) empty_world
      = ((pages, None), w')
    ∧ view pages =
        map (λ i, {| reader := Some (list_byte_of_string ("u" +:+ fmt_d (Z.of_nat i))) |})
            [1%nat; 2%nat; 0%nat].
Proof.
  apply (downloadAllPages_rotates_left (demo_env 200 no_fault) Background
           (demo_issue 3) empty_world
           (λ i, "u" +:+ fmt_d (Z.of_nat i))
           (λ i, list_byte_of_string ("u" +:+ fmt_d (Z.of_nat i)))).
  intros i Hi. split; [reflexivity|].
  split; [reflexivity|]. eexists. split; reflexivity.
Defined.

(** ** [unlockAndMerge]: the order of the sub-pages *)

Section Merge.
Variable E : Env.

Lemma mapM_cons_option {A B} (f : A → option B) x l :
  mapM f (x :: l) =
    match f x with
    | Some y => match mapM f l with Some k => Some (y :: k) | None => None end
    | None => None
    end.
Proof. cbn [mapM]. destruct (f x); [|done]. simpl. by destruct (mapM f l). Qed.

Lemma sub_page_at_Some r i sp :
  sub_page_at E r i = Some sp →
  ∃ sp0, GetPageAsPdfPage r (Z.of_nat i) = Ok sp0
         ∧ AddPage E (clearAnnots sp0) = None ∧ sp = clearAnnots sp0.
Proof.
  unfold sub_page_at. destruct (GetPageAsPdfPage r _) as [sp0|]; [|done].
  destruct (AddPage E _) eqn:Ha; [done|]. intros [= <-]. by exists sp0.
Qed.

Lemma sub_page_at_None r i :
  sub_page_at E r i = None →
  (∃ e, GetPageAsPdfPage r (Z.of_nat i) = Err e)
  ∨ (∃ sp0 e, GetPageAsPdfPage r (Z.of_nat i) = Ok sp0
              ∧ AddPage E (clearAnnots sp0) = Some e).
Proof.
  unfold sub_page_at. destruct (GetPageAsPdfPage r _) as [sp0|e]; [|by eauto].
  destruct (AddPage E _) eqn:Ha; [|done]. intros _. right. by eauto.
Qed.

Lemma subPagesLoop_Some r n : ∀ i0 w0 sps,
  mapM (sub_page_at E r) (seq (S i0) n) = Some sps →
  subPagesLoop E r n (Z.of_nat i0) w0 = (Some (w0 ++ sps), None).
Proof.
  induction n as [|n IH]; intros i0 w0 sps Hspec.
  - injection Hspec as <-. simpl. by rewrite app_nil_r.
  - cbn [seq] in Hspec. rewrite mapM_cons_option in Hspec.
    destruct (sub_page_at E r (S i0)) as [sp|] eqn:Hsp; [|done].
    destruct (mapM (sub_page_at E r) (seq (S (S i0)) n)) as [k|] eqn:Hk; [|done].
    injection Hspec as <-.
    apply sub_page_at_Some in Hsp as (sp0 & Hget & Hadd & ->).
    cbn [subPagesLoop].
    replace (Z.of_nat i0 + 1) with (Z.of_nat (S i0)) by lia.
    rewrite Hget, Hadd, (IH (S i0) _ k Hk). by rewrite <- app_assoc.
Qed.

Lemma subPagesLoop_None r n : ∀ i0 w0,
  mapM (sub_page_at E r) (seq (S i0) n) = None →
  ∃ e, subPagesLoop E r n (Z.of_nat i0) w0 = (None, Some e).
Proof.
  induction n as [|n IH]; intros i0 w0 Hspec; [done|].
  cbn [seq] in Hspec. rewrite mapM_cons_option in Hspec.
  cbn [subPagesLoop].
  replace (Z.of_nat i0 + 1) with (Z.of_nat (S i0)) by lia.
  destruct (sub_page_at E r (S i0)) as [sp|] eqn:Hsp.
  - apply sub_page_at_Some in Hsp as (sp0 & -> & -> & ->).
    destruct (mapM (sub_page_at E r) (seq (S (S i0)) n)) as [k|] eqn:Hk; [done|].
    by apply IH.
  - apply sub_page_at_None in Hsp as [[e ->]|(sp0 & e & -> & ->)]; by eexists.
Qed.

Lemma containersLoop_Some password pages : ∀ w0 ls,
  mapM (merge_container E password) pages = Some ls →
  containersLoop E pages password w0 = (Some (w0 ++ concat ls), None).
Proof.
  induction pages as [|p rest IH]; intros w0 ls Hspec.
  - injection Hspec as <-. simpl. by rewrite app_nil_r.
  - rewrite mapM_cons_option in Hspec.
    destruct (merge_container E password p) as [sps|] eqn:Hp; [|done].
    destruct (mapM (merge_container E password) rest) as [k|] eqn:Hk; [|done].
    injection Hspec as <-.
    unfold merge_container in Hp. cbn [containersLoop].
    destruct (NewPdfReader E p) as [r|e]; [|done].
    destruct (Decrypt r password) as [[|]|e]; [|done..].
    destruct (GetNumPages r) as [n|e]; [|done].
    rewrite (subPagesLoop_Some r _ 0%nat w0 sps Hp : subPagesLoop _ _ _ 0 _ = _).
    rewrite (IH _ k eq_refl). simpl. by rewrite <- app_assoc.
Qed.

Lemma containersLoop_None password pages : ∀ w0,
  mapM (merge_container E password) pages = None →
  ∃ e, containersLoop E pages password w0 = (None, Some e).
Proof.
  induction pages as [|p rest IH]; intros w0 Hspec; [done|].
  rewrite mapM_cons_option in Hspec. cbn [containersLoop].
  destruct (merge_container E password p) as [sps|] eqn:Hp;
    unfold merge_container in Hp;
    (destruct (NewPdfReader E p) as [r|e]; [|by eexists]);
    (destruct (Decrypt r password) as [[|]|e]; [|by eexists..]);
    (destruct (GetNumPages r) as [n|e]; [|by eexists]).
  - rewrite (subPagesLoop_Some r _ 0%nat w0 sps Hp : subPagesLoop _ _ _ 0 _ = _).
    destruct (mapM (merge_container E password) rest) as [k|] eqn:Hk; [done|].
    by apply IH.
  - destruct (subPagesLoop_None r _ 0%nat w0 Hp) as [e He].
    change (Z.of_nat 0) with 0 in He. rewrite He. by eexists.
Qed.

(** [unlockAndMerge] hands back a document or an error, never both and
    never neither. *)
Lemma unlockAndMerge_cases pages password :
  (∃ w, unlockAndMerge E pages password = (Some w, None))
  ∨ (∃ e, unlockAndMerge E pages password = (None, Some e)).
Proof.
  unfold unlockAndMerge.
  destruct (mapM (merge_container E password) (view pages)) as [ls|] eqn:Hs.
  - left. eexists. by apply containersLoop_Some.
  - right. by apply containersLoop_None.
Qed.

Lemma sub_page_at_cleared r i sp : sub_page_at E r i = Some sp → Annots sp = None.
Proof.
  unfold sub_page_at. destruct (GetPageAsPdfPage r _); [|done].
  destruct (AddPage E _); [done|]. by intros [= <-].
Qed.

Lemma merge_container_cleared password p sps :
  merge_container E password p = Some sps → Forall (λ sp, Annots sp = None) sps.
Proof.
  unfold merge_container. destruct (NewPdfReader E p) as [r|]; [|done].
  destruct (Decrypt r password) as [[|]|]; [|done..].
  destruct (GetNumPages r) as [n|]; [|done].
  intros Hm%mapM_Some_1.
  induction Hm as [|i sp l k Hsp _ IH]; constructor; [|done].
  by eapply sub_page_at_cleared.
Qed.

Lemma merge_spec_cleared password pages w :
  merge_spec E password pages = Some w → Forall (λ sp, Annots sp = None) w.
Proof.
  unfold merge_spec.
  destruct (mapM (merge_container E password) pages) as [ls|] eqn:Hls; [|done].
  intros [= <-]. apply mapM_Some_1 in Hls.
  induction Hls as [|p sps l k Hp _ IH]; simpl; [constructor|].
  apply Forall_app. split; [|done]. by eapply merge_container_cleared.
Qed.
End Merge.

(** C8: [unlockAndMerge] succeeds exactly when every container parses,
    opens and gives up its sub-pages, and the document it returns then
    holds the sub-pages of the containers in the order of the input list,
    those of one container by ascending index from 1, every one with its
    annotations cleared; otherwise it returns an error and no document. *)
Theorem unlockAndMerge_in_order E pages password :
  (∀ w, unlockAndMerge E pages password = (Some w, None)
        ↔ merge_spec E password (view pages) = Some w)
  ∧ (∀ w, unlockAndMerge E pages password = (Some w, None) →
          Forall (λ sp, Annots sp = None) w)
  ∧ (merge_spec E password (view pages) = None →
     ∃ e, unlockAndMerge E pages password = (None, Some e)).
Proof.
  assert (Hiff : ∀ w, unlockAndMerge E pages password = (Some w, None)
                      ↔ merge_spec E password (view pages) = Some w).
  { intros w. unfold unlockAndMerge, merge_spec.
    destruct (mapM (merge_container E password) (view pages)) as [ls|] eqn:Hs.
    - rewrite (containersLoop_Some E password _ NewPdfWriter ls Hs). simpl.
      split; intros [= <-]; done.
    - destruct (containersLoop_None E password _ NewPdfWriter Hs) as [e ->].
      simpl. split; intros [=]. }
  split; [done|]. split.
  - intros w Hw%Hiff. by eapply merge_spec_cleared.
  - unfold unlockAndMerge, merge_spec.
    destruct (mapM (merge_container E password) (view pages)) as [ls|] eqn:Hs;
      [done|].
    intros _. by apply containersLoop_None.
Qed.

(** Two containers [A] and [B] of two sub-pages each come out as A1, A2,
    B1, B2, without their annotations. *)
Example unlockAndMerge_two_containers :
  unlockAndMerge (demo_env_of 2 200 no_fault) demo_two_pages
    (list_byte_of_string "secret")
  = (Some [ {| Contents := [Byte.x41; Byte.x01]; Annots := None |};
            {| Contents := [Byte.x41; Byte.x02]; Annots := None |};
            {| Contents := [Byte.x42; Byte.x01]; Annots := None |};
            {| Contents := [Byte.x42; Byte.x02]; Annots := None |} ], None).
Proof. reflexivity. Qed.

(** ** The decryption failure of line 186 *)

Section DecryptFailure.
Variable E : Env.

Lemma merge_container_loop password p sps w0 r :
  NewPdfReader E p = Ok r →
  merge_container E password p = Some sps →
  ∃ n, GetNumPages r = Ok n
       ∧ subPagesLoop E r (Z.to_nat n) 0 w0 = (Some (w0 ++ sps), None).
Proof.
  unfold merge_container. intros ->.
  destruct (Decrypt r password) as [[|]|]; [|done..].
  destruct (GetNumPages r) as [n|]; [|done].
  intros Hm. exists n. split; [done|].
  exact (subPagesLoop_Some E r _ 0%nat w0 sps Hm).
Qed.

Lemma containersLoop_rejected password pages : ∀ w0,
  rejected E password pages = true →
  containersLoop E pages password w0
    = (None, Some (decrypt_failure (string_of_list_byte password))).
Proof.
  induction pages as [|p rest IH]; intros w0 Hrej; [done|].
  cbn [rejected containersLoop] in *.
  destruct (NewPdfReader E p) as [r|] eqn:Hr; [|done].
  destruct (Decrypt r password) as [[|]|]; [|done..].
  destruct (merge_container E password p) as [sps|] eqn:Hp; [|done].
  destruct (merge_container_loop password p sps w0 r Hr Hp) as (n & -> & ->).
  by apply IH.
Qed.

Lemma save_rejected session pages password path w :
  rejected E (list_byte_of_string password) (view pages) = true →
  save E session pages password path w
    = (Some ("failed to unlock and merge pages for " +:+ path +:+ ": "
             +:+ decrypt_failure password), w).
Proof.
  intros Hrej. unfold save, unlockAndMerge.
  rewrite (containersLoop_rejected _ _ NewPdfWriter Hrej).
  by rewrite string_of_list_byte_of_string.
Qed.
End DecryptFailure.

(** C4, as stated, fails: two passwords that the same container turns down
    give two different messages, each spelling out its password. *)
Lemma decrypt_failure_reveals_password :
  rejected (demo_env 200 no_fault) (list_byte_of_string "hunter2") (view demo_pages) = true
  ∧ rejected (demo_env 200 no_fault) (list_byte_of_string "letmein") (view demo_pages) = true
  ∧ fst (save (demo_env 200 no_fault) demo_session demo_pages "hunter2" "Mag/One.pdf"
           empty_world)
    = Some "failed to unlock and merge pages for Mag/One.pdf: failed to decrypt pages using password hunter2"
  ∧ fst (save (demo_env 200 no_fault) demo_session demo_pages "letmein" "Mag/One.pdf"
           empty_world)
    = Some "failed to unlock and merge pages for Mag/One.pdf: failed to decrypt pages using password letmein"
  ∧ fst (save (demo_env 200 no_fault) demo_session demo_pages "hunter2" "Mag/One.pdf"
           empty_world)
    ≠ fst (save (demo_env 200 no_fault) demo_session demo_pages "letmein" "Mag/One.pdf"
             empty_world).
Proof. repeat split; try reflexivity. vm_compute. discriminate. Qed.

(** C4 (amended): when a page container turns the password down, the
    error of [unlockAndMerge] is the fixed text "failed to decrypt pages
    using password " followed by the password itself, and [save] reports
    it behind "failed to unlock and merge pages for <path>: "; so two
    rejected passwords give the same message only when they are the same
    password. *)
Theorem decrypt_failure_message_spells_password E session pages path w pw1 pw2 :
  rejected E (list_byte_of_string pw1) (view pages) = true →
  rejected E (list_byte_of_string pw2) (view pages) = true →
  unlockAndMerge E pages (list_byte_of_string pw1)
    = (None, Some ("failed to decrypt pages using password " +:+ pw1))
  ∧ fst (save E session pages pw1 path w)
    = Some ("failed to unlock and merge pages for " +:+ path
            +:+ ": failed to decrypt pages using password " +:+ pw1)
  ∧ (fst (save E session pages pw1 path w) = fst (save E session pages pw2 path w)
     ↔ pw1 = pw2).
Proof.
  intros H1 H2. split; [|split].
  - unfold unlockAndMerge.
    rewrite (containersLoop_rejected E _ _ NewPdfWriter H1).
    by rewrite string_of_list_byte_of_string.
  - by rewrite (save_rejected E session pages pw1 path w H1).
  - rewrite (save_rejected E session pages pw1 path w H1),
            (save_rejected E session pages pw2 path w H2).
    simpl. split; [|by intros ->].
    intros [= Heq]. unfold decrypt_failure in Heq.
    by repeat apply String.app_inj in Heq.
Qed.

Lemma decrypt_failure_message_spells_password_sample :
  unlockAndMerge (demo_env 200 no_fault) demo_pages (list_byte_of_string "hunter2")
    = (None, Some ("failed to decrypt pages using password " +:+ "hunter2"))
  ∧ fst (save (demo_env 200 no_fault) demo_session demo_pages "hunter2" "Mag/One.pdf"
           empty_world)
    = Some ("failed to unlock and merge pages for " +:+ "Mag/One.pdf"
            +:+ ": failed to decrypt pages using password " +:+ "hunter2")
  ∧ (fst (save (demo_env 200 no_fault) demo_session demo_pages "hunter2" "Mag/One.pdf"
            empty_world)
     = fst (save (demo_env 200 no_fault) demo_session demo_pages "letmein" "Mag/One.pdf"
              empty_world)
     ↔ "hunter2" = "letmein").
Proof.
  apply (decrypt_failure_message_spells_password (demo_env 200 no_fault)
           demo_session demo_pages "Mag/One.pdf" empty_world "hunter2" "letmein");
    reflexivity.
Defined.

(** ** [save]: the temporary file and the rename *)

Lemma string_length_app (a b : string) :
  String.length (a +:+ b) = (String.length a + String.length b)%nat.
Proof. induction a as [|c a IH]; simpl; [done|]. by rewrite IH. Qed.

(** The temporary path is never the final path. *)
Lemma temp_ne_path (path : string) : path +:+ ".part" ≠ path.
Proof.
  intros Heq. apply (f_equal String.length) in Heq.
  rewrite string_length_app in Heq. simpl in Heq. lia.
Qed.

Lemma Write_error_ok E t : fault E t = None → Write_error E t = None.
Proof. unfold Write_error. by intros ->. Qed.

Lemma written_ok E t doc : fault E t = None → written E t doc = encode E doc.
Proof. unfold written. by intros ->. Qed.

Section Save.
Variable E : Env.
Variables (session : Session) (pages : slice page) (password path : string).
Variable w : World.

(** [unlockAndMerge] failed: nothing is touched. *)
Lemma save_unlock_failed e :
  snd (unlockAndMerge E pages (list_byte_of_string password)) = Some e →
  save E session pages password path w
    = (Some ("failed to unlock and merge pages for " +:+ path +:+ ": " +:+ e), w).
Proof.
  unfold save. destruct (unlockAndMerge _ _ _) as [pdf err]. simpl.
  by intros ->.
Qed.

(** The temporary file could not be created. *)
Lemma save_create_failed doc e :
  unlockAndMerge E pages (list_byte_of_string password) = (Some doc, None) →
  Create_error E (path +:+ ".part") w = Some e →
  save E session pages password path w
    = (Some ("failed to create " +:+ path +:+ ": " +:+ e),
       emit (EvCreate (path +:+ ".part") (Some e)) (fs w) w).
Proof.
  intros Hdoc Hc. unfold save, os_Create. rewrite Hdoc. unfold_M.
  by rewrite Hc.
Qed.

(** The temporary file was created: the write, the close and, when both
    went well, the rename. *)
Lemma save_created doc :
  unlockAndMerge E pages (list_byte_of_string password) = (Some doc, None) →
  Create_error E (path +:+ ".part") w = None →
  let f1 := <[(path +:+ ".part") := File []]> (fs w) in
  let w1 := emit (EvCreate (path +:+ ".part") None) f1 w in
  let werr := Write_error E (S (now w)) in
  let content := written E (S (now w)) doc in
  let f2 := <[(path +:+ ".part") := File content]> f1 in
  let w2 := emit (EvWrite (path +:+ ".part") werr) f2 w1 in
  let cerr := fault E (S (S (now w))) in
  let w3 := emit (EvClose (path +:+ ".part") cerr) f2 w2 in
  save E session pages password path w =
    match werr, cerr with
    | None, None =>
        let rerr := fault E (S (S (S (now w)))) in
        (Wrapf rerr ("failed to save " +:+ path),
         emit (EvRename (path +:+ ".part") path rerr)
           (match rerr with
            | None => <[path := File content]> (delete (path +:+ ".part") f2)
            | Some _ => f2
            end) w3)
    | _, _ => (Wrapf werr ("failed to save " +:+ path), w3)
    end.
Proof.
  intros Hdoc Hc. unfold save, os_Create, pdf_Write, file_Close, os_Rename.
  rewrite Hdoc. unfold_M. rewrite Hc. cbn zeta.
  rewrite !now_emit. fold (path +:+ ".part").
  destruct (Write_error E (S (now w))) as [we|] eqn:Hw;
    destruct (fault E (S (S (now w)))) as [ce|] eqn:Hcl; try reflexivity.
  rewrite bool_decide_eq_false_2 by (intros [?|?]; congruence).
  rewrite !now_emit. cbn [fs emit].
  destruct (fault E (S (S (S (now w))))) as [re|]; [reflexivity|].
  by rewrite lookup_insert_eq.
Qed.
End Save.

Lemma continues_snoc w l w1 e f :
  continues w l w1 → continues w (l ++ [(e, f)]) (emit e f w1).
Proof. intros H. eapply continues_trans; [done|]. apply continues_emit. Qed.

(** C3 is violated by the code: when the document was written but closing
    the temporary file fails, line 163 wraps the [nil] error of the write,
    so [save] returns [nil]; no rename was attempted. *)
Theorem save_close_failure_returns_nil E session pages password path w doc e :
  unlockAndMerge E pages (list_byte_of_string password) = (Some doc, None) →
  Create_error E (path +:+ ".part") w = None →
  fault E (S (now w)) = None →
  fault E (S (S (now w))) = Some e →
  fst (save E session pages password path w) = None
  ∧ new_events w (snd (save E session pages password path w))
    = [EvCreate (path +:+ ".part") None; EvWrite (path +:+ ".part") None;
       EvClose (path +:+ ".part") (Some e)].
Proof.
  intros Hdoc Hc Hw Hcl.
  rewrite (save_created E session pages password path w doc Hdoc Hc).
  cbn zeta. rewrite (Write_error_ok E _ Hw), Hcl. split; [done|]. simpl.
  erewrite continues_new_events; last first.
  { do 3 apply continues_snoc. apply continues_refl. }
  done.
Qed.

Lemma save_close_failure_returns_nil_sample :
  fst (save (demo_env 200 (fault_at 2 "close: input/output error")) demo_session
         demo_pages "secret" "Mag/One.pdf" empty_world) = None
  ∧ new_events empty_world
      (snd (save (demo_env 200 (fault_at 2 "close: input/output error")) demo_session
              demo_pages "secret" "Mag/One.pdf" empty_world))
    = [EvCreate ("Mag/One.pdf" +:+ ".part") None;
       EvWrite ("Mag/One.pdf" +:+ ".part") None;
       EvClose ("Mag/One.pdf" +:+ ".part") (Some "close: input/output error")].
Proof.
  apply (save_close_failure_returns_nil
           (demo_env 200 (fault_at 2 "close: input/output error")) demo_session
           demo_pages "secret" "Mag/One.pdf" empty_world
           [{| Contents := [Byte.x25; Byte.x01]; Annots := None |}]);
    reflexivity.
Defined.

Section SaveFacts.
Variable E : Env.
Variables (session : Session) (pages : slice page) (password path : string).
Variable w : World.

(** Writing to the temporary path leaves the final path alone. *)
Lemma lookup_path_insert_temp (f : FS) n : <[(path +:+ ".part") := n]> f !! path = f !! path.
Proof. apply lookup_insert_ne, temp_ne_path. Qed.

Lemma lookup_temp_renamed (f : FS) n : <[path := n]> (delete (path +:+ ".part") f) !! (path +:+ ".part") = None.
Proof.
  rewrite lookup_insert_ne by (symmetry; apply temp_ne_path).
  apply lookup_delete_eq.
Qed.
End SaveFacts.

(** C10, as stated, fails: a write to the temporary file that fails
    without [pdf.Write] reporting it is followed by the close and the
    rename: no temporary file is left, and the final path is not absent: it
    holds the part of the document that was written. *)
Lemma unreported_write_failure_leaves_no_temp :
  fault (with_quiet_writes 1 (demo_env 200 (fault_at 1 "write: no space left on device")))
    1%nat = Some "write: no space left on device"
  ∧ fs (snd (save (with_quiet_writes 1
                     (demo_env 200 (fault_at 1 "write: no space left on device")))
               demo_session demo_pages "secret" "Mag/One.pdf" empty_world))
      !! "Mag/One.pdf.part" = None
  ∧ fs (snd (save (with_quiet_writes 1
                     (demo_env 200 (fault_at 1 "write: no space left on device")))
               demo_session demo_pages "secret" "Mag/One.pdf" empty_world))
      !! "Mag/One.pdf" = Some (File [Byte.x25]).
Proof. repeat split; vm_compute; reflexivity. Qed.

(** C10 (amended): once the temporary file is created, when [pdf.Write]
    returns an error or the close fails, the temporary file stays where it
    is, at the path with the suffix ".part", holding what was written, and
    the final path stays absent; when [pdf.Write], the close and the rename
    all return without error the temporary path is gone and the final path
    holds what [pdf.Write] left in the file: the whole document when its
    writes went through.  (A failing rename, too, leaves the temporary
    file.) *)
Theorem save_temp_file_fate E session pages password path w doc :
  unlockAndMerge E pages (list_byte_of_string password) = (Some doc, None) →
  fs w !! path = None →
  Create_error E (path +:+ ".part") w = None →
  (Write_error E (S (now w)) ≠ None ∨ fault E (S (S (now w))) ≠ None →
   fs (snd (save E session pages password path w)) !! (path +:+ ".part")
     = Some (File (written E (S (now w)) doc))
   ∧ fs (snd (save E session pages password path w)) !! path = None)
  ∧ (Write_error E (S (now w)) = None → fault E (S (S (now w))) = None →
     fault E (S (S (S (now w)))) = None →
     fs (snd (save E session pages password path w)) !! (path +:+ ".part") = None
     ∧ fs (snd (save E session pages password path w)) !! path
       = Some (File (written E (S (now w)) doc)))
  ∧ (Write_error E (S (now w)) = None → fault E (S (S (now w))) = None →
     fault E (S (S (S (now w)))) ≠ None →
     fs (snd (save E session pages password path w)) !! (path +:+ ".part")
       = Some (File (written E (S (now w)) doc))
     ∧ fs (snd (save E session pages password path w)) !! path = None)
  ∧ (fault E (S (now w)) = None →
     Write_error E (S (now w)) = None
     ∧ written E (S (now w)) doc = encode E doc).
Proof.
  intros Hdoc Habsent Hc.
  rewrite (save_created E session pages password path w doc Hdoc Hc). cbn zeta.
  split; [|split; [|split]].
  - intros Hfail.
    destruct (Write_error E (S (now w))) as [we|] eqn:Hw.
    + cbn [snd fs emit]. split; [apply lookup_insert_eq|].
      by rewrite !lookup_path_insert_temp.
    + destruct (fault E (S (S (now w)))) as [ce|] eqn:Hcl.
      * cbn [snd fs emit]. split; [apply lookup_insert_eq|].
        by rewrite !lookup_path_insert_temp.
      * destruct Hfail; congruence.
  - intros -> -> ->. cbn [snd fs emit]. split.
    + apply lookup_temp_renamed.
    + apply lookup_insert_eq.
  - intros -> -> Hren.
    destruct (fault E (S (S (S (now w))))) as [re|]; [|done].
    cbn [snd fs emit]. split; [apply lookup_insert_eq|].
    by rewrite !lookup_path_insert_temp.
  - intros Hw. split; [by apply Write_error_ok|by apply written_ok].
Qed.

Lemma save_temp_file_fate_sample :
  (Write_error (demo_env 200 (fault_at 1 "write: no space left on device")) 1%nat ≠ None
   ∨ fault_at 1 "write: no space left on device" 2%nat ≠ None →
   fs (snd (save (demo_env 200 (fault_at 1 "write: no space left on device"))
              demo_session demo_pages "secret" "Mag/One.pdf" empty_world))
     !! ("Mag/One.pdf" +:+ ".part")
     = Some (File (written (demo_env 200 (fault_at 1 "write: no space left on device"))
                     1%nat [{| Contents := [Byte.x25; Byte.x01]; Annots := None |}]))
   ∧ fs (snd (save (demo_env 200 (fault_at 1 "write: no space left on device"))
                demo_session demo_pages "secret" "Mag/One.pdf" empty_world))
       !! "Mag/One.pdf" = None)
  ∧ (Write_error (demo_env 200 (fault_at 1 "write: no space left on device")) 1%nat = None →
     fault_at 1 "write: no space left on device" 2%nat = None →
     fault_at 1 "write: no space left on device" 3%nat = None →
     fs (snd (save (demo_env 200 (fault_at 1 "write: no space left on device"))
                demo_session demo_pages "secret" "Mag/One.pdf" empty_world))
       !! ("Mag/One.pdf" +:+ ".part") = None
     ∧ fs (snd (save (demo_env 200 (fault_at 1 "write: no space left on device"))
                  demo_session demo_pages "secret" "Mag/One.pdf" empty_world))
         !! "Mag/One.pdf"
       = Some (File (written (demo_env 200 (fault_at 1 "write: no space left on device"))
                       1%nat [{| Contents := [Byte.x25; Byte.x01]; Annots := None |}])))
  ∧ (Write_error (demo_env 200 (fault_at 1 "write: no space left on device")) 1%nat = None →
     fault_at 1 "write: no space left on device" 2%nat = None →
     fault_at 1 "write: no space left on device" 3%nat ≠ None →
     fs (snd (save (demo_env 200 (fault_at 1 "write: no space left on device"))
                demo_session demo_pages "secret" "Mag/One.pdf" empty_world))
       !! ("Mag/One.pdf" +:+ ".part")
       = Some (File (written (demo_env 200 (fault_at 1 "write: no space left on device"))
                       1%nat [{| Contents := [Byte.x25; Byte.x01]; Annots := None |}]))
     ∧ fs (snd (save (demo_env 200 (fault_at 1 "write: no space left on device"))
                  demo_session demo_pages "secret" "Mag/One.pdf" empty_world))
         !! "Mag/One.pdf" = None)
  ∧ (fault_at 1 "write: no space left on device" 1%nat = None →
     Write_error (demo_env 200 (fault_at 1 "write: no space left on device")) 1%nat = None
     ∧ written (demo_env 200 (fault_at 1 "write: no space left on device")) 1%nat
         [{| Contents := [Byte.x25; Byte.x01]; Annots := None |}]
       = encode (demo_env 200 (fault_at 1 "write: no space left on device"))
           [{| Contents := [Byte.x25; Byte.x01]; Annots := None |}]).
Proof.
  apply (save_temp_file_fate
           (demo_env 200 (fault_at 1 "write: no space left on device")) demo_session
           demo_pages "secret" "Mag/One.pdf" empty_world
           [{| Contents := [Byte.x25; Byte.x01]; Annots := None |}]);
    reflexivity.
Defined.

(** C2, as stated, fails: [pdf.Write] need not report a write that failed;
    when it does not, [save] renames the temporary file all the same, and
    the final path comes to hold a partially written document. *)
Lemma final_path_may_hold_a_partial_document :
  unlockAndMerge (with_quiet_writes 3 (demo_env_of 2 200 (fault_at 1 "write: broken pipe")))
    demo_pages (list_byte_of_string "secret")
  = (Some [ {| Contents := [Byte.x25; Byte.x01]; Annots := None |};
            {| Contents := [Byte.x25; Byte.x02]; Annots := None |} ], None)
  ∧ encode (with_quiet_writes 3 (demo_env_of 2 200 (fault_at 1 "write: broken pipe")))
      [ {| Contents := [Byte.x25; Byte.x01]; Annots := None |};
        {| Contents := [Byte.x25; Byte.x02]; Annots := None |} ]
    = [Byte.x25; Byte.x01; Byte.x25; Byte.x02]
  ∧ fst (save (with_quiet_writes 3 (demo_env_of 2 200 (fault_at 1 "write: broken pipe")))
           demo_session demo_pages "secret" "Mag/One.pdf" empty_world) = None
  ∧ fs (snd (save (with_quiet_writes 3
                     (demo_env_of 2 200 (fault_at 1 "write: broken pipe")))
               demo_session demo_pages "secret" "Mag/One.pdf" empty_world))
      !! "Mag/One.pdf" = Some (File [Byte.x25; Byte.x01; Byte.x25]).
Proof. repeat split; vm_compute; reflexivity. Qed.

(** C2 (amended): every file call of [save] before the rename names the
    temporary path, the final path with ".part" appended; the rename to
    the final path is attempted only after [pdf.Write] and the close both
    returned without error; and at every moment of the run the final path
    is as [save] found it (absent, if it was absent), except right after a
    successful rename, when it holds what [pdf.Write] left in the temporary
    file.  So a run that stops after the write and before the rename leaves
    no file at the final path.  And the calls are made: once the pages are
    merged and the temporary file is created, the run is the creation, the
    write of the document to the temporary path and the close, followed by
    the rename exactly when write and close returned without error; what
    is written is the whole document when the writes went through. *)
Theorem save_writes_temp_then_renames E session pages password path w :
  ∃ l, continues w l (snd (save E session pages password path w))
    ∧ (∀ name e f, (EvCreate name e, f) ∈ l ∨ (EvWrite name e, f) ∈ l
                   ∨ (EvClose name e, f) ∈ l →
                   name = path +:+ ".part")
    ∧ (∀ o n e f, (EvRename o n e, f) ∈ l →
                  o = path +:+ ".part" ∧ n = path
                  ∧ ∃ f1 f2, (EvWrite (path +:+ ".part") None, f1) ∈ l
                             ∧ (EvClose (path +:+ ".part") None, f2) ∈ l)
    ∧ (∀ ev f, (ev, f) ∈ l →
               f !! path = fs w !! path
               ∨ (ev = EvRename (path +:+ ".part") path None
                  ∧ ∃ doc, unlockAndMerge E pages (list_byte_of_string password)
                           = (Some doc, None)
                           ∧ f !! path = Some (File (written E (S (now w)) doc))))
    ∧ (fs w !! path = None →
       ∀ ev f, (ev, f) ∈ l → ev ≠ EvRename (path +:+ ".part") path None →
               f !! path = None)
    ∧ (∀ doc,
         unlockAndMerge E pages (list_byte_of_string password) = (Some doc, None) →
         Create_error E (path +:+ ".part") w = None →
         ∃ f2 rest,
           l = [ (EvCreate (path +:+ ".part") None,
                  <[(path +:+ ".part") := File []]> (fs w));
                 (EvWrite (path +:+ ".part") (Write_error E (S (now w))), f2);
                 (EvClose (path +:+ ".part") (fault E (S (S (now w)))), f2) ] ++ rest
           ∧ f2 !! (path +:+ ".part") = Some (File (written E (S (now w)) doc))
           ∧ (fault E (S (now w)) = None → written E (S (now w)) doc = encode E doc)
           ∧ (Write_error E (S (now w)) = None → fault E (S (S (now w))) = None →
              ∃ f3, rest = [(EvRename (path +:+ ".part") path
                               (fault E (S (S (S (now w))))), f3)]
                    ∧ (fault E (S (S (S (now w)))) = None →
                       f3 !! path = Some (File (written E (S (now w)) doc))
                       ∧ f3 !! (path +:+ ".part") = None))
           ∧ (Write_error E (S (now w)) ≠ None ∨ fault E (S (S (now w))) ≠ None →
              rest = [])).
Proof.
  enough (∃ l, continues w l (snd (save E session pages password path w))
    ∧ (∀ name e f, (EvCreate name e, f) ∈ l ∨ (EvWrite name e, f) ∈ l
                   ∨ (EvClose name e, f) ∈ l →
                   name = path +:+ ".part")
    ∧ (∀ o n e f, (EvRename o n e, f) ∈ l →
                  o = path +:+ ".part" ∧ n = path
                  ∧ ∃ f1 f2, (EvWrite (path +:+ ".part") None, f1) ∈ l
                             ∧ (EvClose (path +:+ ".part") None, f2) ∈ l)
    ∧ (∀ ev f, (ev, f) ∈ l →
               f !! path = fs w !! path
               ∨ (ev = EvRename (path +:+ ".part") path None
                  ∧ ∃ doc, unlockAndMerge E pages (list_byte_of_string password)
                           = (Some doc, None)
                           ∧ f !! path = Some (File (written E (S (now w)) doc))))
    ∧ (∀ doc,
         unlockAndMerge E pages (list_byte_of_string password) = (Some doc, None) →
         Create_error E (path +:+ ".part") w = None →
         ∃ f2 rest,
           l = [ (EvCreate (path +:+ ".part") None,
                  <[(path +:+ ".part") := File []]> (fs w));
                 (EvWrite (path +:+ ".part") (Write_error E (S (now w))), f2);
                 (EvClose (path +:+ ".part") (fault E (S (S (now w)))), f2) ] ++ rest
           ∧ f2 !! (path +:+ ".part") = Some (File (written E (S (now w)) doc))
           ∧ (fault E (S (now w)) = None → written E (S (now w)) doc = encode E doc)
           ∧ (Write_error E (S (now w)) = None → fault E (S (S (now w))) = None →
              ∃ f3, rest = [(EvRename (path +:+ ".part") path
                               (fault E (S (S (S (now w))))), f3)]
                    ∧ (fault E (S (S (S (now w)))) = None →
                       f3 !! path = Some (File (written E (S (now w)) doc))
                       ∧ f3 !! (path +:+ ".part") = None))
           ∧ (Write_error E (S (now w)) ≠ None ∨ fault E (S (S (now w))) ≠ None →
              rest = [])))
    as (l & Hc & H1 & H2 & H3 & H4).
  { exists l. split; [done|]. split; [done|]. split; [done|]. split; [done|].
    split; [|done].
    intros Habsent ev f Hin Hev.
    destruct (H3 ev f Hin) as [Hsame|[Hren _]]; [congruence|done]. }
  destruct (unlockAndMerge_cases E pages (list_byte_of_string password))
    as [[doc Hdoc]|[e He]].
  2:{ rewrite (save_unlock_failed E session pages password path w e)
        by (by rewrite He).
      exists []. split; [apply continues_refl|].
      split; [|split; [|split]].
      - intros name e0 f [H|[H|H]]; by apply elem_of_nil in H.
      - intros o n e0 f H. by apply elem_of_nil in H.
      - intros ev f H. by apply elem_of_nil in H.
      - intros doc Hdoc. congruence. }
  pose proof (lookup_path_insert_temp path) as Hne.
  destruct (Create_error E (path +:+ ".part") w) as [ce|] eqn:Hc.
  { rewrite (save_create_failed E session pages password path w doc ce Hdoc Hc).
    eexists. split; [apply continues_emit|].
    split; [|split; [|split]].
    - intros name e0 f [H|[H|H]]; mem_cases H; by simplify_eq.
    - intros o n e0 f H. mem_cases H. by simplify_eq.
    - intros ev f H. mem_cases H. simplify_eq. by left.
    - intros doc' _ Hc'. congruence. }
  rewrite (save_created E session pages password path w doc Hdoc Hc). cbn zeta.
  assert (Hwhole : fault E (S (now w)) = None → written E (S (now w)) doc = encode E doc)
    by apply written_ok.
  destruct (Write_error E (S (now w))) as [we|];
    [|destruct (fault E (S (S (now w)))) as [cle|];
      [|destruct (fault E (S (S (S (now w))))) as [re|]]];
    (eexists; split; [cbn [snd]; repeat apply continues_snoc; apply continues_refl|]);
    cbn [app]; (split; [|split; [|split]]).
  all: try (intros name e0 f [H|[H|H]]; mem_cases H; by simplify_eq).
  all: try (intros o n e0 f H; mem_cases H;
            first [ by simplify_eq
                  | simplify_eq; split; [done|]; split; [done|];
                    eexists _, _; split; mem_solve ]).
  all: try (intros ev f H; mem_cases H; simplify_eq; rewrite ?Hne;
            first [ by left
                  | right; split; [done|]; exists doc; split; [done|];
                    apply lookup_insert_eq ]).
  all: intros doc' Hdoc' _; assert (doc' = doc) as -> by congruence;
    eexists _, _; (split; [reflexivity|]);
    (split; [apply lookup_insert_eq|]); (split; [exact Hwhole|]).
  - split; [done|]. done.
  - split; [done|]. done.
  - split; [|by intros [?|?]].
    intros _ _. eexists. split; [reflexivity|]. done.
  - split; [|by intros [?|?]].
    intros _ _. eexists. split; [reflexivity|]. intros _.
    split; [apply lookup_insert_eq|apply lookup_temp_renamed].
Qed.

Lemma save_writes_temp_then_renames_sample :
  ∃ f2 rest,
    trace (snd (save (demo_env 200 no_fault) demo_session demo_pages "secret"
                  "Mag/One.pdf" empty_world))
    = [ (EvCreate ("Mag/One.pdf" +:+ ".part") None,
         <[("Mag/One.pdf" +:+ ".part") := File []]> (fs empty_world));
        (EvWrite ("Mag/One.pdf" +:+ ".part") (Write_error (demo_env 200 no_fault) 1%nat),
         f2);
        (EvClose ("Mag/One.pdf" +:+ ".part") (fault (demo_env 200 no_fault) 2%nat), f2) ]
      ++ rest
    ∧ f2 !! ("Mag/One.pdf" +:+ ".part")
      = Some (File (written (demo_env 200 no_fault) 1%nat
                      [{| Contents := [Byte.x25; Byte.x01]; Annots := None |}]))
    ∧ ∃ f3, rest = [(EvRename ("Mag/One.pdf" +:+ ".part") "Mag/One.pdf"
                       (fault (demo_env 200 no_fault) 3%nat), f3)]
            ∧ f3 !! "Mag/One.pdf"
              = Some (File (encode (demo_env 200 no_fault)
                              [{| Contents := [Byte.x25; Byte.x01]; Annots := None |}]))
            ∧ f3 !! ("Mag/One.pdf" +:+ ".part") = None.
Proof.
  destruct (save_writes_temp_then_renames (demo_env 200 no_fault) demo_session
              demo_pages "secret" "Mag/One.pdf" empty_world)
    as (l & Hc & _ & _ & _ & _ & Hrun).
  destruct (Hrun [{| Contents := [Byte.x25; Byte.x01]; Annots := None |}]
              eq_refl eq_refl) as (f2 & rest & Hl & Hf2 & Hwhole & Hren & _).
  destruct (Hren eq_refl eq_refl) as (f3 & Hrest & Hf3).
  destruct (Hf3 eq_refl) as [Hpath Htemp].
  exists f2, rest. split; [by rewrite Hc, Hl|]. split; [done|].
  exists f3. split; [done|]. split; [|done].
  by rewrite Hpath, (Hwhole eq_refl).
Defined.

(** ** [downloadAllPages]: how many fetches, and what a failure does *)

Section Fetching.
Variable E : Env.
Variable ctx : Ctx.

Lemma fetches_app (l1 l2 : list Event) :
  fetches (l1 ++ l2) = (fetches l1 + fetches l2)%nat.
Proof. unfold fetches. by rewrite List.filter_app, length_app. Qed.

(** One call of [downloadPage] is one fetch; it touches no file, and when
    it returns no error none of its events is a failure. *)
Lemma downloadPage_trace url w :
  ∃ l, continues w l (snd (downloadPage E ctx url w))
    ∧ fs (snd (downloadPage E ctx url w)) = fs w
    ∧ Forall (λ x, is_net (fst x) = true) l
    ∧ fetches (map fst l) = 1%nat
    ∧ (snd (fst (downloadPage E ctx url w)) = None →
       Forall (λ x, fetch_failed (fst x) = false) l)
    ∧ (snd (fst (downloadPage E ctx url w)) ≠ None →
       fst (fst (downloadPage E ctx url w)) = page_zero).
Proof.
  rewrite downloadPage_eq.
  destruct (WithTimeout E ctx (now w)) as [e|].
  { eexists. split; [apply continues_emit|]. by repeat constructor. }
  destruct (http_Do E (now w) url) as [resp|e].
  2:{ eexists. split; [apply continues_emit|]. by repeat constructor. }
  cbn zeta. destruct (Body resp) as [b|e].
  - eexists. split; [do 2 apply continues_snoc; apply continues_refl|].
    by repeat constructor.
  - eexists. split; [do 2 apply continues_snoc; apply continues_refl|].
    by repeat constructor.
Qed.

(** The loop of [downloadAllPages]: it fetches and nothing else, at most
    [n] times; it ends without error only after [n] fetches none of
    which failed, and with an error it hands back no pages. *)
Lemma pagesLoop_trace issue n : ∀ i pages w pages' err w',
  wf pages →
  pagesLoop E ctx issue n i pages w = ((pages', err), w') →
  ∃ l, continues w l w'
    ∧ fs w' = fs w
    ∧ Forall (λ x, is_net (fst x) = true) l
    ∧ (fetches (map fst l) ≤ n)%nat
    ∧ (err = None →
       fetches (map fst l) = n ∧ wf pages' ∧ len pages' = (len pages + n)%nat
       ∧ Forall (λ x, fetch_failed (fst x) = false) l
       ∧ ∀ k, (k < n)%nat → snd (GetURL issue (i + Z.of_nat k)) = None)
    ∧ (err ≠ None → pages' = pages_nil).
Proof.
  induction n as [|n IH]; intros i pages w pages' err w' Hwf Hrun.
  - injection Hrun as <- <- <-. exists []. split; [apply continues_refl|].
    split; [done|]. split; [constructor|]. split; [done|]. split; [|done].
    intros _. split; [done|]. split; [done|]. split; [lia|].
    split; [constructor|]. intros k Hk. lia.
  - cbn [pagesLoop] in Hrun.
    destruct (GetURL issue i) as [url [e|]] eqn:Hurl.
    { injection Hrun as <- <- <-. exists []. split; [apply continues_refl|].
      split; [done|]. split; [constructor|]. split; [unfold fetches; simpl; lia|].
      split; [done|]. done. }
    unfold_M.
    destruct (downloadPage_trace url w) as (l1 & Hc1 & Hfs1 & Hnet1 & Hn1 & Hok1 & _).
    destruct (downloadPage E ctx url w) as [[pg [e|]] w1]; simpl in *.
    { injection Hrun as <- <- <-. exists l1.
      split; [done|]. split; [done|]. split; [done|]. split; [lia|].
      split; [done|]. done. }
    destruct (IH _ _ _ _ _ _ (wf_append page_zero (growth E) _ pg Hwf) Hrun)
      as (l2 & Hc2 & Hfs2 & Hnet2 & Hle2 & Hok2 & Herr2).
    exists (l1 ++ l2). split; [by eapply continues_trans|].
    rewrite map_app, fetches_app, Hn1.
    split; [congruence|]. split; [by apply Forall_app|]. split; [lia|].
    split; [|done].
    intros Hnone. destruct (Hok2 Hnone) as (Hf & Hwf' & Hlen & Hnf & Hurls).
    rewrite len_append in Hlen.
    split; [lia|]. split; [done|]. split; [lia|].
    split; [apply Forall_app; auto|].
    intros [|k] Hk.
    + by rewrite Z.add_0_r, Hurl.
    + replace (i + Z.of_nat (S k)) with (i + 1 + Z.of_nat k) by lia.
      apply Hurls. lia.
Qed.

(** The same for the whole of [downloadAllPages]. *)
Lemma downloadAllPages_trace issue w pages err w' :
  downloadAllPages E ctx issue w = ((pages, err), w') →
  ∃ l, continues w l w'
    ∧ fs w' = fs w
    ∧ Forall (λ x, is_net (fst x) = true) l
    ∧ (fetches (map fst l) ≤ Z.to_nat (PageCount issue))%nat
    ∧ (err = None →
       fetches (map fst l) = Z.to_nat (PageCount issue)
       ∧ length (view pages) = Z.to_nat (PageCount issue)
       ∧ Forall (λ x, fetch_failed (fst x) = false) l
       ∧ ∀ i, 0 ≤ i < PageCount issue → snd (GetURL issue i) = None)
    ∧ (err ≠ None → pages = pages_nil).
Proof.
  unfold downloadAllPages. unfold_M.
  destruct (pagesLoop E ctx issue _ 0 pages_nil w) as [[ps e] w1] eqn:Hloop.
  destruct (pagesLoop_trace issue _ _ _ _ _ _ _ wf_nil_slice Hloop)
    as (l & Hc & Hfs & Hnet & Hle & Hok & Herr).
  destruct e as [e|]; intros [= <- <- <-]; exists l;
    (split; [done|]; split; [done|]; split; [done|]; split; [done|]).
  - split; [done|]. intros _. done.
  - split; [|done]. intros _.
    destruct (Hok eq_refl) as (Hf & Hwf & Hlen & Hnf & Hurls).
    split; [done|]. split; [|split; [done|]].
    + pose proof (view_rotate page_zero (growth E) ps Hwf) as Hv.
      pose proof (length_view ps Hwf) as Hl. simpl in Hlen.
      rewrite Hv. destruct (view ps) as [|p0 rest]; simpl in *; [lia|].
      rewrite length_app. simpl. lia.
    + intros i Hi. specialize (Hurls (Z.to_nat i) ltac:(lia)).
      by replace (0 + Z.of_nat (Z.to_nat i)) with i in Hurls by lia.
Qed.
End Fetching.

(** ** The function literal of [downloadAllIssues] *)

Section PerIssue.
Variable E : Env.
Variable ctx : Ctx.
Variable session : Session.

(** [save] only makes file calls, and an error it returns names the
    destination path. *)
Lemma save_trace pages password path w :
  ∃ l, continues w l (snd (save E session pages password path w))
    ∧ Forall (λ x, is_file_call (fst x) = true) l
    ∧ (fst (save E session pages password path w) = None
       ∨ ∃ what e,
           fst (save E session pages password path w)
             = Some (what +:+ path +:+ ": " +:+ e)
           ∧ what ∈ ["failed to unlock and merge pages for ";
                     "failed to create "; "failed to save "]).
Proof.
  destruct (unlockAndMerge_cases E pages (list_byte_of_string password))
    as [[doc Hdoc]|[e He]].
  2:{ rewrite (save_unlock_failed E session pages password path w e)
        by (by rewrite He).
      exists []. split; [apply continues_refl|]. split; [constructor|].
      right. eexists _, _. split; [done|]. mem_solve. }
  destruct (Create_error E (path +:+ ".part") w) as [ce|] eqn:Hc.
  { rewrite (save_create_failed E session pages password path w doc ce Hdoc Hc).
    eexists. split; [apply continues_emit|]. split; [by repeat constructor|].
    right. eexists _, _. split; [done|]. mem_solve. }
  rewrite (save_created E session pages password path w doc Hdoc Hc). cbn zeta.
  destruct (Write_error E (S (now w))) as [we|];
    [|destruct (fault E (S (S (now w)))) as [cle|];
      [|destruct (fault E (S (S (S (now w))))) as [re|]]];
    (eexists; split;
     [cbn [snd]; repeat apply continues_snoc; apply continues_refl|]);
    cbn [app]; (split; [by repeat constructor|]).
  - right. exists "failed to save ", we. split; [done|]. mem_solve.
  - by left.
  - right. exists "failed to save ", re. split; [done|]. mem_solve.
  - by left.
Qed.

(** An error of the page loop is the error of a URL derivation, or that
    of a fetch behind the index of its page. *)
Lemma pagesLoop_error issue n : ∀ i pages w msg,
  snd (fst (pagesLoop E ctx issue n i pages w)) = Some msg →
  ∃ k, i ≤ k < i + Z.of_nat n
       ∧ (snd (GetURL issue k) = Some msg
          ∨ ∃ cause, msg = "failed to download page " +:+ fmt_d k +:+ ": " +:+ cause).
Proof.
  induction n as [|n IH]; intros i pages w msg Hmsg; [done|].
  cbn [pagesLoop] in Hmsg.
  destruct (GetURL issue i) as [url [e|]] eqn:Hurl.
  { exists i. split; [lia|]. left. by rewrite Hurl. }
  unfold_M. destruct (downloadPage E ctx url w) as [[pg [e|]] w1].
  { exists i. split; [lia|]. right. exists e. simpl in Hmsg.
    by injection Hmsg as <-. }
  destruct (IH _ _ _ _ Hmsg) as (k & Hk & Hcase).
  exists k. split; [lia|done].
Qed.

Lemma downloadAllPages_error issue w msg :
  snd (fst (downloadAllPages E ctx issue w)) = Some msg →
  ∃ k, 0 ≤ k < PageCount issue
       ∧ (snd (GetURL issue k) = Some msg
          ∨ ∃ cause, msg = "failed to download page " +:+ fmt_d k +:+ ": " +:+ cause).
Proof.
  unfold downloadAllPages. unfold_M.
  destruct (pagesLoop E ctx issue _ 0 pages_nil w) as [[ps [e|]] w1] eqn:Hloop;
    [|done].
  intros [= <-].
  destruct (pagesLoop_error issue (Z.to_nat (PageCount issue)) 0 pages_nil w e)
    as (k & Hk & Hcase).
  { by rewrite Hloop. }
  exists k. split; [lia|done].
Qed.

Lemma filter_none (f : Event → bool) (l : list (Event * FS)) :
  Forall (λ x, f (fst x) = false) l → List.filter f (map fst l) = [].
Proof.
  induction 1 as [|x l Hx _ IH]; simpl; [done|]. by rewrite Hx.
Qed.

Lemma Forall_kind (f g : Event → bool) (b : bool) (l : list (Event * FS)) :
  (∀ e, f e = true → g e = b) →
  Forall (λ x, f (fst x) = true) l → Forall (λ x, g (fst x) = b) l.
Proof. intros Hfg Hl. eapply Forall_impl; [exact Hl|]. intros x. apply Hfg. Qed.

Lemma net_not_GetIssue e : is_net e = true → is_GetIssue e = false.
Proof. by destruct e. Qed.
Lemma net_not_fs e : is_net e = true → touches_fs e = false.
Proof. by destruct e. Qed.
Lemma file_not_GetIssue e : is_file_call e = true → is_GetIssue e = false.
Proof. by destruct e. Qed.
Lemma file_not_fetch e : is_file_call e = true → is_fetch e = false.
Proof. by destruct e. Qed.
Lemma file_not_failed e : is_file_call e = true → fetch_failed e = false.
Proof. by destruct e. Qed.

(** Lines 129-133: [if err != nil { return err }; return nil]. *)
Lemma return_error (err : error) (w : World) :
  match err with
  | Some _ => mret (M := M) err
  | None => mret None
  end w = (err, w).
Proof. by destruct err. Qed.

(** [save] touches the temporary and the final path only. *)
Lemma save_frame pages password path w p :
  p ≠ path → p ≠ path +:+ ".part" →
  fs (snd (save E session pages password path w)) !! p = fs w !! p.
Proof.
  intros Hp Ht.
  destruct (unlockAndMerge_cases E pages (list_byte_of_string password))
    as [[doc Hdoc]|[e He]].
  2:{ by rewrite (save_unlock_failed E session pages password path w e)
        by (by rewrite He). }
  destruct (Create_error E (path +:+ ".part") w) as [ce|] eqn:Hc.
  { by rewrite (save_create_failed E session pages password path w doc ce Hdoc Hc). }
  rewrite (save_created E session pages password path w doc Hdoc Hc). cbn zeta.
  destruct (Write_error E (S (now w))) as [we|];
    [|destruct (fault E (S (S (now w)))) as [cle|];
      [|destruct (fault E (S (S (S (now w))))) as [re|]]];
    cbn [snd fs emit];
    by rewrite ?lookup_insert_ne, ?lookup_delete_ne, ?lookup_insert_ne by done.
Qed.

Variable magazine : Magazine.
Variable metadata : IssueMetadata.
Variable path : string.

(** What one run of the function literal amounts to. *)
Lemma issueFunc_digest w :
  ∃ l, continues w l (snd (issueFunc E ctx session magazine metadata path w))
    ∧ length (List.filter is_GetIssue (map fst l)) = 1%nat
    ∧ match session_GetIssue E (S (now w)) session (mID magazine) (iID metadata) with
      | Err e =>
          fst (issueFunc E ctx session magazine metadata path w) = Some e
          ∧ fs (snd (issueFunc E ctx session magazine metadata path w)) = fs w
          ∧ Forall (λ x, fetch_failed (fst x) = false ∧ touches_fs (fst x) = false) l
      | Ok issue =>
          (fetches (map fst l) ≤ Z.to_nat (PageCount issue))%nat
          ∧ ((∃ k e,
                0 ≤ k < PageCount issue
                ∧ (snd (GetURL issue k) = Some e
                   ∨ ∃ cause, e = "failed to download page " +:+ fmt_d k
                                  +:+ ": " +:+ cause)
                ∧ fst (issueFunc E ctx session magazine metadata path w)
                  = Wrapf (Some e) ("failed to download " +:+ mTitle magazine
                                    +:+ " " +:+ iTitle metadata)
                ∧ fs (snd (issueFunc E ctx session magazine metadata path w)) = fs w
                ∧ Forall (λ x, touches_fs (fst x) = false) l)
             ∨ (fetches (map fst l) = Z.to_nat (PageCount issue)
                ∧ Forall (λ x, fetch_failed (fst x) = false) l
                ∧ (∀ i, 0 ≤ i < PageCount issue → snd (GetURL issue i) = None)
                ∧ (fst (issueFunc E ctx session magazine metadata path w) = None
                   ∨ ∃ what e,
                       fst (issueFunc E ctx session magazine metadata path w)
                         = Some (what +:+ path +:+ ": " +:+ e)
                       ∧ what ∈ ["failed to unlock and merge pages for ";
                                 "failed to create "; "failed to save "])))
      end.
Proof.
  unfold issueFunc, entry_Info, GetIssue. unfold_M. rewrite now_emit.
  destruct (session_GetIssue E (S (now w)) session (mID magazine) (iID metadata))
    as [issue|e].
  2:{ eexists. split; [cbn [snd]; do 2 apply continues_snoc; apply continues_refl|].
      cbn [app]. split; [done|]. split; [done|]. split; [done|].
      by repeat constructor. }
  cbn [err_of fs emit].
  set (w3 := emit (EvInfo _ _ "downloading issue") _ _).
  assert (Hw3 : continues w [(EvInfo (mTitle magazine) (iTitle metadata)
                                "downloading issue metadata", fs w);
                             (EvGetIssue (mID magazine) (iID metadata) None, fs w);
                             (EvInfo (mTitle magazine) (iTitle metadata)
                                "downloading issue", fs w)] w3).
  { unfold w3, continues. cbn [trace emit]. by rewrite <- !app_assoc. }
  assert (Hfs3 : fs w3 = fs w) by done.
  pose proof (downloadAllPages_error issue w3) as Herr.
  destruct (downloadAllPages E ctx issue w3) as [[pages err] w4] eqn:Hdl.
  destruct (downloadAllPages_trace E ctx issue w3 pages err w4 Hdl)
    as (lp & Hcp & Hfsp & Hnetp & Hlep & Hokp & _).
  pose proof (filter_none is_GetIssue lp
                (Forall_kind _ _ _ lp net_not_GetIssue Hnetp)) as HGp.
  destruct err as [e|].
  - eexists. split; [cbn [snd]; by eapply continues_trans|].
    rewrite map_app, List.filter_app, HGp. split; [done|].
    rewrite fetches_app. split; [exact Hlep|]. left.
    destruct (Herr e eq_refl) as (k & Hk & Hcase).
    exists k, e. split; [done|]. split; [done|]. split; [done|].
    split; [cbn [snd]; congruence|].
    apply Forall_app. split; [by repeat constructor|].
    by apply (Forall_kind is_net touches_fs false lp net_not_fs).
  - destruct (Hokp eq_refl) as (Hfetch & _ & Hnf & Hurls).
    set (w5 := emit (EvInfo _ _ "saving issue") _ _).
    destruct (save_trace pages (Password issue) path w5) as (ls & Hcs & Hfile & Hres).
    destruct (save E session pages (Password issue) path w5) as [serr w6] eqn:Hsave.
    cbn [fst snd] in *.
    pose proof (return_error serr w6) as Hfin. unfold_M. unfold error in *.
    rewrite Hfin.
    clear Hfin. cbn [fst snd].
    exists (([(EvInfo (mTitle magazine) (iTitle metadata)
                 "downloading issue metadata", fs w);
              (EvGetIssue (mID magazine) (iID metadata) None, fs w);
              (EvInfo (mTitle magazine) (iTitle metadata)
                 "downloading issue", fs w)] ++ lp)
            ++ [(EvInfo (mTitle magazine) (iTitle metadata) "saving issue", fs w4)]
            ++ ls).
    split.
    { eapply continues_trans; [by eapply continues_trans|].
      eapply continues_trans; [apply continues_emit|exact Hcs]. }
    pose proof (filter_none is_GetIssue ls
                  (Forall_kind _ _ _ ls file_not_GetIssue Hfile)) as HGs.
    pose proof (filter_none is_fetch ls
                  (Forall_kind _ _ _ ls file_not_fetch Hfile)) as HFs.
    rewrite !map_app, !List.filter_app, HGp, HGs. split; [done|].
    assert (Hf0 : fetches (map fst ls) = 0%nat) by (unfold fetches; by rewrite HFs).
    rewrite !fetches_app, Hf0.
    repeat match goal with
           | |- context [fetches (map fst (?x :: ?r))] =>
               change (fetches (map fst (x :: r))) with 0%nat
           end.
    split; [lia|]. right. split; [lia|]. split; [|by split].
    apply Forall_app. split; [apply Forall_app; split; [by repeat constructor|done]|].
    constructor; [done|].
    by apply (Forall_kind is_file_call fetch_failed false ls file_not_failed).
Qed.

Lemma net_not_turn e : is_net e = true → is_turn e = false.
Proof. by destruct e. Qed.
Lemma file_not_turn e : is_file_call e = true → is_turn e = false.
Proof. by destruct e. Qed.
Lemma net_by_issue M I e : is_net e = true → by_issue M I e.
Proof. by destruct e. Qed.
Lemma file_by_issue M I e : is_file_call e = true → by_issue M I e.
Proof. by destruct e. Qed.

(** The events of the literal are those of its issue, beginning with the
    line "downloading issue metadata"; no file other than the temporary
    and the final one is touched. *)
Lemma issueFunc_frame w :
  ∃ l, continues w l (snd (issueFunc E ctx session magazine metadata path w))
    ∧ (∃ l', l = (EvInfo (mTitle magazine) (iTitle metadata)
                    "downloading issue metadata", fs w) :: l')
    ∧ Forall (λ x, by_issue (mTitle magazine) (iTitle metadata) (fst x)) l
    ∧ length (List.filter is_turn (map fst l)) = 1%nat
    ∧ (∀ p, p ≠ path → p ≠ path +:+ ".part" →
            fs (snd (issueFunc E ctx session magazine metadata path w)) !! p
            = fs w !! p).
Proof.
  unfold issueFunc, entry_Info, GetIssue. unfold_M. rewrite now_emit.
  destruct (session_GetIssue E (S (now w)) session (mID magazine) (iID metadata))
    as [issue|e].
  2:{ eexists. split; [cbn [snd]; do 2 apply continues_snoc; apply continues_refl|].
      cbn [app]. split; [by eexists|]. split; [by repeat constructor|done]. }
  cbn [err_of fs emit].
  set (w3 := emit (EvInfo _ _ "downloading issue") _ _).
  assert (Hw3 : continues w [(EvInfo (mTitle magazine) (iTitle metadata)
                                "downloading issue metadata", fs w);
                             (EvGetIssue (mID magazine) (iID metadata) None, fs w);
                             (EvInfo (mTitle magazine) (iTitle metadata)
                                "downloading issue", fs w)] w3).
  { unfold w3, continues. cbn [trace emit]. by rewrite <- !app_assoc. }
  assert (Hfs3 : fs w3 = fs w) by done.
  destruct (downloadAllPages E ctx issue w3) as [[pages err] w4] eqn:Hdl.
  destruct (downloadAllPages_trace E ctx issue w3 pages err w4 Hdl)
    as (lp & Hcp & Hfsp & Hnetp & _).
  assert (Hbyp : Forall (λ x, by_issue (mTitle magazine) (iTitle metadata) (fst x)) lp).
  { eapply Forall_impl; [exact Hnetp|]. intros x. apply net_by_issue. }
  pose proof (filter_none is_turn lp
                (Forall_kind _ _ _ lp net_not_turn Hnetp)) as HTp.
  destruct err as [e|].
  - eexists. split; [cbn [snd]; by eapply continues_trans|].
    split; [by eexists|]. split; [|split].
    + apply Forall_app. split; [by repeat constructor|done].
    + by rewrite map_app, List.filter_app, HTp.
    + intros p _ _. cbn [snd]. congruence.
  - set (w5 := emit (EvInfo _ _ "saving issue") _ _).
    destruct (save_trace pages (Password issue) path w5) as (ls & Hcs & Hfile & _).
    pose proof (save_frame pages (Password issue) path w5) as Hframe.
    destruct (save E session pages (Password issue) path w5) as [serr w6] eqn:Hsave.
    cbn [fst snd] in *.
    pose proof (return_error serr w6) as Hfin. unfold_M. unfold error in *.
    rewrite Hfin. clear Hfin. cbn [fst snd].
    exists (([(EvInfo (mTitle magazine) (iTitle metadata)
                 "downloading issue metadata", fs w);
              (EvGetIssue (mID magazine) (iID metadata) None, fs w);
              (EvInfo (mTitle magazine) (iTitle metadata)
                 "downloading issue", fs w)] ++ lp)
            ++ [(EvInfo (mTitle magazine) (iTitle metadata) "saving issue", fs w4)]
            ++ ls).
    split.
    { eapply continues_trans; [by eapply continues_trans|].
      eapply continues_trans; [apply continues_emit|exact Hcs]. }
    split; [by eexists|]. split; [|split].
    + apply Forall_app. split; [apply Forall_app; split; [by repeat constructor|done]|].
      constructor; [done|].
      eapply Forall_impl; [exact Hfile|]. intros x. apply file_by_issue.
    + pose proof (filter_none is_turn ls
                    (Forall_kind _ _ _ ls file_not_turn Hfile)) as HTs.
      by rewrite !map_app, !List.filter_app, HTp, HTs.
    + intros p Hp Ht. rewrite (Hframe p Hp Ht). unfold w5. cbn [fs emit].
      congruence.
Qed.
End PerIssue.

Lemma Forall_Exists_false {A} (f : A → bool) (l : list A) :
  Forall (λ x, f x = false) l → Exists (λ x, f x = true) l → False.
Proof.
  intros Hall Hex. apply Exists_exists in Hex as (x & Hx & Hfx).
  rewrite Forall_forall in Hall. specialize (Hall x Hx). congruence.
Qed.

Lemma continues_inj w l1 l2 w' : continues w l1 w' → continues w l2 w' → l1 = l2.
Proof. unfold continues. intros -> H. by apply app_inv_head in H. Qed.

(** ** [downloadAllPages]: which fetches are attempted *)

Section Attempts.
Variable E : Env.
Variable ctx : Ctx.

Lemma attempts_app (l1 l2 : list Event) :
  attempts (l1 ++ l2) = attempts l1 ++ attempts l2.
Proof. unfold attempts. apply omap_app. Qed.

Lemma fetches_attempts (l : list Event) : fetches l = length (attempts l).
Proof.
  unfold fetches, attempts. induction l as [|e l IH]; [done|].
  destruct e; simpl; first [exact IH | f_equal; exact IH].
Qed.


(** One call of [downloadPage] is one attempt, for its URL; when it
    returns an error the failure is its last event. *)
Lemma downloadPage_attempt url w :
  ∃ l, continues w l (snd (downloadPage E ctx url w))
    ∧ attempts (map fst l) = [url]
    ∧ match snd (fst (downloadPage E ctx url w)) with
      | None => Forall (λ x, fetch_failed (fst x) = false) l
      | Some _ =>
          ∃ l0 ev, l = l0 ++ [ev] ∧ fetch_failed (fst ev) = true
                   ∧ Forall (λ x, fetch_failed (fst x) = false) l0
      end.
Proof.
  rewrite downloadPage_eq.
  destruct (WithTimeout E ctx (now w)) as [e|].
  { eexists. split; [apply continues_emit|]. split; [done|].
    eexists [], _. by repeat split. }
  destruct (http_Do E (now w) url) as [resp|e].
  2:{ eexists. split; [apply continues_emit|]. split; [done|].
      eexists [], _. by repeat split. }
  cbn zeta. destruct (Body resp) as [b|e];
    (eexists; split; [do 2 apply continues_snoc; apply continues_refl|]);
    cbn [app]; (split; [done|]); cbn [fst snd].
  - by repeat constructor.
  - eexists [_], _. split; [done|]. split; [done|]. by repeat constructor.
Qed.

(** The loop attempts the pages by ascending index, each once, and none
    after the first failure. *)
Lemma pagesLoop_attempts issue n : ∀ i0 pages w,
  ∃ l k, continues w l (snd (pagesLoop E ctx issue n (Z.of_nat i0) pages w))
    ∧ (k ≤ n)%nat
    ∧ attempts (map fst l) = map (λ i, fst (GetURL issue (Z.of_nat i))) (seq i0 k)
    ∧ match snd (fst (pagesLoop E ctx issue n (Z.of_nat i0) pages w)) with
      | None => k = n ∧ Forall (λ x, fetch_failed (fst x) = false) l
      | Some e =>
          ((k < n)%nat ∧ snd (GetURL issue (Z.of_nat (i0 + k))) = Some e
           ∧ Forall (λ x, fetch_failed (fst x) = false) l)
          ∨ (∃ k' cause l0 ev,
               k = S k'
               ∧ e = "failed to download page " +:+ fmt_d (Z.of_nat (i0 + k'))
                     +:+ ": " +:+ cause
               ∧ l = l0 ++ [ev] ∧ fetch_failed (fst ev) = true
               ∧ Forall (λ x, fetch_failed (fst x) = false) l0)
      end.
Proof.
  induction n as [|n IH]; intros i0 pages w.
  - exists [], 0%nat. split; [apply continues_refl|]. by repeat split.
  - cbn [pagesLoop]. unfold_M.
    destruct (GetURL issue (Z.of_nat i0)) as [url [e|]] eqn:Hurl.
    { exists [], 0%nat. split; [apply continues_refl|]. split; [lia|].
      split; [done|]. cbn [fst snd]. left. split; [lia|].
      rewrite Nat.add_0_r, Hurl. by split. }
    destruct (downloadPage_attempt url w) as (l1 & Hc1 & Hat1 & Hres1).
    destruct (downloadPage E ctx url w) as [[pg [e|]] w1]; cbn [fst snd] in *.
    { destruct Hres1 as (l0 & ev & -> & Hev & Hl0).
      exists (l0 ++ [ev]), 1%nat. split; [done|]. split; [lia|].
      split; [simpl; by rewrite Hat1, Hurl|].
      right. exists 0%nat, e, l0, ev. rewrite Nat.add_0_r. by repeat split. }
    replace (Z.of_nat i0 + 1) with (Z.of_nat (S i0)) by lia.
    destruct (IH (S i0) (append page_zero (growth E) pages pg) w1)
      as (l2 & k & Hc2 & Hk & Hat2 & Hres2).
    exists (l1 ++ l2), (S k). split; [by eapply continues_trans|].
    split; [lia|]. split.
    { rewrite map_app, attempts_app, Hat1, Hat2. simpl. by rewrite Hurl. }
    destruct (snd (fst (pagesLoop E ctx issue n (Z.of_nat (S i0)) _ w1))) as [e|].
    + destruct Hres2 as [(Hlt & Hbad & Hok2)|(k' & cause & l0 & ev & -> & -> & -> & Hev & Hl0)].
      * left. split; [lia|].
        replace (i0 + S k)%nat with (S i0 + k)%nat by lia.
        split; [done|]. by apply Forall_app.
      * right. exists (S k'), cause, (l1 ++ l0), ev.
        replace (i0 + S k')%nat with (S i0 + k')%nat by lia.
        split; [done|]. split; [done|]. split; [by rewrite app_assoc|].
        split; [done|]. by apply Forall_app.
    + destruct Hres2 as [-> Hok2]. split; [done|]. by apply Forall_app.
Qed.

End Attempts.

(** C6, as stated, fails: with three pages to fetch and the server of the
    first one out of reach, one fetch is attempted, not three. *)
Lemma downloadAllPages_stops_at_first_failure :
  PageCount (demo_issue 3) = 3
  ∧ attempts (new_events empty_world
                (snd (downloadAllPages (with_broken_url "u0" (demo_env 200 no_fault))
                        Background (demo_issue 3) empty_world))) = ["u0"]
  ∧ fetches (new_events empty_world
               (snd (downloadAllPages (with_broken_url "u0" (demo_env 200 no_fault))
                       Background (demo_issue 3) empty_world))) = 1%nat
  ∧ Z.of_nat (fetches (new_events empty_world
                         (snd (downloadAllPages
                                 (with_broken_url "u0" (demo_env 200 no_fault))
                                 Background (demo_issue 3) empty_world))))
    ≠ PageCount (demo_issue 3).
Proof.
  split; [reflexivity|]. split; [reflexivity|]. split; [reflexivity|].
  vm_compute. discriminate.
Qed.

(** C6 (amended): [downloadAllPages] attempts the page fetches one after
    the other by ascending index, and only as long as they succeed.  When
    every URL derivation and every fetch succeeds, exactly [PageCount]
    fetches are attempted and as many pages are returned.  When the fetch
    of page k is the first to fail, exactly k+1 fetches have been attempted
    (those of pages 0 to k, the last event being the failure) and the error
    reads "failed to download page k: ..."; when the URL of page k cannot
    be derived, exactly k fetches have been attempted, all of them
    successful, and the error is that of the derivation.  In both cases
    no pages are returned, and nothing is fetched after the failure.  No
    file is touched.  In the function literal that processes one issue,
    such a failure makes the literal return an error with the filesystem as
    it was and no file call made: [save] is not invoked. *)
Theorem downloadAllPages_all_or_nothing E ctx session magazine metadata path issue w :
  (∃ l k, continues w l (snd (downloadAllPages E ctx issue w))
     ∧ fs (snd (downloadAllPages E ctx issue w)) = fs w
     ∧ (k ≤ Z.to_nat (PageCount issue))%nat
     ∧ attempts (map fst l) = map (λ i, fst (GetURL issue (Z.of_nat i))) (seq 0 k)
     ∧ fetches (map fst l) = k
     ∧ match snd (fst (downloadAllPages E ctx issue w)) with
       | None =>
           k = Z.to_nat (PageCount issue)
           ∧ Forall (λ x, fetch_failed (fst x) = false) l
           ∧ length (view (fst (fst (downloadAllPages E ctx issue w))))
             = Z.to_nat (PageCount issue)
       | Some e =>
           fst (fst (downloadAllPages E ctx issue w)) = pages_nil
           ∧ (((k < Z.to_nat (PageCount issue))%nat
               ∧ snd (GetURL issue (Z.of_nat k)) = Some e
               ∧ Forall (λ x, fetch_failed (fst x) = false) l)
              ∨ (∃ k' cause l0 ev,
                   k = S k'
                   ∧ e = "failed to download page " +:+ fmt_d (Z.of_nat k')
                         +:+ ": " +:+ cause
                   ∧ l = l0 ++ [ev] ∧ fetch_failed (fst ev) = true
                   ∧ Forall (λ x, fetch_failed (fst x) = false) l0))
       end
     ∧ (Exists (λ x, fetch_failed (fst x) = true) l
        ∨ (∃ i, 0 ≤ i < PageCount issue ∧ snd (GetURL issue i) ≠ None) →
        snd (fst (downloadAllPages E ctx issue w)) ≠ None))
  ∧ (∃ l, continues w l (snd (issueFunc E ctx session magazine metadata path w))
       ∧ (Exists (λ x, fetch_failed (fst x) = true) l
          ∨ (session_GetIssue E (S (now w)) session (mID magazine) (iID metadata)
               = Ok issue
             ∧ ∃ i, 0 ≤ i < PageCount issue ∧ snd (GetURL issue i) ≠ None) →
          fst (issueFunc E ctx session magazine metadata path w) ≠ None
          ∧ fs (snd (issueFunc E ctx session magazine metadata path w)) = fs w
          ∧ Forall (λ x, touches_fs (fst x) = false) l)).
Proof.
  split.
  - destruct (pagesLoop_attempts E ctx issue (Z.to_nat (PageCount issue)) 0%nat
                pages_nil w) as (l & k & Hc & Hk & Hat & Hres).
    change (Z.of_nat 0) with 0 in *.
    destruct (downloadAllPages E ctx issue w) as [[pages err] w'] eqn:Hdl.
    destruct (downloadAllPages_trace E ctx issue w pages err w' Hdl)
      as (l' & Hc' & Hfs & _ & _ & Hok & Herr).
    unfold downloadAllPages in Hdl. unfold_M.
    destruct (pagesLoop E ctx issue (Z.to_nat (PageCount issue)) 0 pages_nil w)
      as [[ps lerr] w1]; cbn [fst snd] in *.
    assert (lerr = err ∧ w1 = w') as [-> ->].
    { destruct lerr; by injection Hdl as _ <- <-. }
    pose proof (continues_inj _ _ _ _ Hc Hc') as <-.
    exists l, k. split; [done|]. split; [done|]. split; [done|]. split; [done|].
    split; [by rewrite fetches_attempts, Hat, length_map, length_seq|].
    split.
    + destruct err as [e|].
      * split; [by apply Herr|].
        destruct Hres as [(Hlt & Hbad & Hall)|(k' & cause & l0 & ev & Hres)].
        -- left. by rewrite Nat.add_0_l in Hbad.
        -- right. exists k', cause, l0, ev. by rewrite Nat.add_0_l in Hres.
      * destruct Hres as [-> Hall]. split; [done|]. split; [done|].
        by destruct (Hok eq_refl) as (_ & Hlen & _).
    + intros Hfail Hnone. destruct (Hok Hnone) as (_ & _ & Hnf & Hurls).
      destruct Hfail as [Hex|(i & Hi & Hurl)].
      * by eapply (Forall_Exists_false (λ x, fetch_failed (fst x))).
      * by apply Hurl, Hurls.
  - destruct (issueFunc_digest E ctx session magazine metadata path w)
      as (l & Hc & _ & Hcases).
    exists l. split; [done|]. intros Hfail.
    destruct (session_GetIssue E (S (now w)) session (mID magazine) (iID metadata))
      as [issue'|e].
    + destruct Hcases as [_ [(k & e & _ & _ & -> & Hfs & Hnofs)|(_ & Hnf & Hurls & _)]];
        [done|].
      exfalso. destruct Hfail as [Hex|([= <-] & i & Hi & Hurl)].
      * by eapply (Forall_Exists_false (λ x, fetch_failed (fst x))).
      * by apply Hurl, Hurls.
    + destruct Hcases as (-> & Hfs & Hall).
      destruct Hfail as [Hex|[[=] _]].
      exfalso. eapply (Forall_Exists_false (λ x, fetch_failed (fst x))); [|done].
      eapply Forall_impl; [exact Hall|]. by intros x [? _].
Qed.

(** ** The loops of [downloadAllIssues] *)

Section Batch.
Variable E : Env.
Variable ctx : Ctx.
Variable session : Session.

(** The two ways through the body of the loop over the issues. *)
Lemma issueBody_skip magazine dir metadata w :
  is_Some (fs w !! path_Join E dir (sanitize E (iTitle metadata) +:+ ".pdf")) →
  issueBody E ctx session magazine dir metadata w
    = (tt, emit (EvInfo (mTitle magazine) (iTitle metadata)
                   "issue already downloaded") (fs w) w).
Proof.
  intros [n Hn]. unfold issueBody, os_Stat, entry_Info. unfold_M. by rewrite Hn.
Qed.

Lemma issueBody_run magazine dir metadata w :
  fs w !! path_Join E dir (sanitize E (iTitle metadata) +:+ ".pdf") = None →
  issueBody E ctx session magazine dir metadata w
    = (tt,
       let r := issueFunc E ctx session magazine metadata
                  (path_Join E dir (sanitize E (iTitle metadata) +:+ ".pdf")) w in
       match fst r with
       | Some e => emit (EvError e) (fs (snd r)) (snd r)
       | None => snd r
       end).
Proof.
  intros Hn. unfold issueBody, os_Stat, log_Error. unfold_M. rewrite Hn.
  cbn zeta.
  destruct (blocked E _ _); destruct (issueFunc _ _ _ _ _ _ _) as [[e|] w1];
    reflexivity.
Qed.

(** Whatever happens to an issue, the body takes it up once, asks for its
    metadata at most once, and comes back. *)
Lemma issueBody_turn magazine dir metadata w :
  ∃ l, continues w l (snd (issueBody E ctx session magazine dir metadata w))
    ∧ length (List.filter is_turn (map fst l)) = 1%nat
    ∧ (length (List.filter is_GetIssue (map fst l)) ≤ 1)%nat
    ∧ ∃ msg l', l = (EvInfo (mTitle magazine) (iTitle metadata) msg, fs w) :: l'
                ∧ is_turn (EvInfo (mTitle magazine) (iTitle metadata) msg) = true.
Proof.
  destruct (fs w !! path_Join E dir (sanitize E (iTitle metadata) +:+ ".pdf"))
    as [n|] eqn:Hn.
  - rewrite issueBody_skip by (by rewrite Hn).
    eexists. split; [apply continues_emit|]. split; [done|]. split; [simpl; lia|].
    by eexists _, _.
  - rewrite (issueBody_run _ _ _ _ Hn). cbn zeta. cbn [snd].
    set (path := path_Join E dir _).
    destruct (issueFunc_digest E ctx session magazine metadata path w)
      as (l & Hc & HG & _).
    destruct (issueFunc_frame E ctx session magazine metadata path w)
      as (l2 & Hc2 & (l' & Hl') & _ & HT & _).
    rewrite <- (continues_inj _ _ _ _ Hc Hc2) in *. clear Hc2.
    destruct (fst (issueFunc E ctx session magazine metadata path w)) as [e|].
    + exists (l ++ [(EvError e, fs (snd (issueFunc E ctx session magazine
                                           metadata path w)))]).
      split; [by apply continues_snoc|].
      rewrite map_app, !List.filter_app, !length_app, HT, HG.
      split; [done|]. split; [simpl; lia|].
      rewrite Hl'. by eexists _, _.
    + exists l. split; [done|]. split; [done|]. split; [lia|].
      rewrite Hl'. by eexists _, _.
Qed.


(** The ways through the body of the loop over the magazines: the
    directory is there; [os.Stat] fails otherwise than by its absence, and
    no directory is made; it is made; it cannot be made. *)
Lemma magazineBody_eq magazine w :
  magazineBody E ctx session magazine w =
    let dir := sanitize E (mTitle magazine) in
    match fs w !! dir with
    | Some _ => issuesLoop E ctx session magazine dir (Issues magazine) w
    | None =>
        match blocked E (now w) dir with
        | Some _ => issuesLoop E ctx session magazine dir (Issues magazine) w
        | None =>
            match fault E (now w) with
            | None =>
                issuesLoop E ctx session magazine dir (Issues magazine)
                  (emit (EvMkdir dir None) (<[dir := Dir]> (fs w)) w)
            | Some e =>
                (tt, emit (EvError ("failed to create directory "
                                    +:+ mTitle magazine +:+ ": " +:+ e)) (fs w)
                       (emit (EvMkdir dir (Some e)) (fs w) w))
            end
        end
    end.
Proof.
  unfold magazineBody, os_Stat, os_Mkdir, log_Error. unfold_M. cbn zeta.
  destruct (fs w !! sanitize E (mTitle magazine)) eqn:Hd; [done|].
  destruct (blocked E (now w) (sanitize E (mTitle magazine))); [done|].
  cbn [os_IsNotExist].
  destruct (fault E (now w)); [done|]. by rewrite !Hd.
Qed.


End Batch.

(** ** The stages of the function literal *)





(** ** An issue that is already there *)

Lemma preserves_ret {A} Inv Good (a : A) : preserves Inv Good (mret a).
Proof.
  intros w Hinv. split; [done|]. exists []. split; [apply continues_refl|constructor].
Qed.

Lemma preserves_bind {A B} Inv Good (c : M A) (k : A → M B) :
  preserves Inv Good c → (∀ a, preserves Inv Good (k a)) →
  preserves Inv Good (c ≫= k).
Proof.
  intros Hc Hk w Hinv. unfold_M.
  destruct (Hc w Hinv) as (Hinv1 & l1 & Hc1 & Hg1).
  destruct (c w) as [a w1]. cbn [snd] in *.
  destruct (Hk a w1 Hinv1) as (Hinv2 & l2 & Hc2 & Hg2).
  split; [done|]. exists (l1 ++ l2).
  split; [by eapply continues_trans|by apply Forall_app].
Qed.

Section AlreadyDownloaded.
Variable E : Env.
Variable ctx : Ctx.
Variable session : Session.
(** The issue whose file is there, and the file. *)
Variables (m0 : Magazine) (meta0 : IssueMetadata) (n : Node).

Lemma issueBody_preserves magazine metadata :
  issue_path E magazine metadata +:+ ".part" ≠ issue_path E m0 meta0 →
  preserves (file_kept E m0 meta0 n) (only_skip_logged m0 meta0)
    (issueBody E ctx session magazine (sanitize E (mTitle magazine)) metadata).
Proof.
  intros Htemp w Hinv. unfold file_kept in *.
  destruct (fs w !! issue_path E magazine metadata) as [n'|] eqn:Hn;
    unfold issue_path in Hn.
  - rewrite issueBody_skip by (by rewrite Hn). cbn [snd fs emit].
    split; [done|]. eexists. split; [apply continues_emit|].
    constructor; [|constructor]. by intros msg [= _ _ <-].
  - rewrite (issueBody_run E ctx session _ _ _ _ Hn). cbn zeta. cbn [snd].
    fold (issue_path E magazine metadata) in *.
    assert (Hne : issue_path E m0 meta0 ≠ issue_path E magazine metadata)
      by congruence.
    destruct (issueFunc_frame E ctx session magazine metadata
                (issue_path E magazine metadata) w)
      as (l & Hc & _ & Hby & _ & Hframe).
    assert (Hgood : Forall (λ x, only_skip_logged m0 meta0 (fst x)) l).
    { eapply Forall_impl; [exact Hby|]. intros [ev f] Hev msg Heq.
      cbn [fst] in *. subst ev.
      destruct Hev as [HM HI]. exfalso. apply Hne.
      unfold issue_path. by rewrite HM, HI. }
    set (r := issueFunc _ _ _ _ _ _ _) in *.
    destruct (fst r) as [e|].
    + cbn [fs emit]. split; [rewrite Hframe; [done|done|by apply not_eq_sym]|].
      eexists. split; [by apply continues_snoc|].
      apply Forall_app. split; [done|]. by repeat constructor.
    + split; [rewrite Hframe; [done|done|by apply not_eq_sym]|].
      by exists l.
Qed.

Lemma issuesLoop_preserves magazine issues :
  (∀ metadata, metadata ∈ issues →
     issue_path E magazine metadata +:+ ".part" ≠ issue_path E m0 meta0) →
  preserves (file_kept E m0 meta0 n) (only_skip_logged m0 meta0)
    (issuesLoop E ctx session magazine (sanitize E (mTitle magazine)) issues).
Proof.
  induction issues as [|metadata rest IH]; intros Htemp.
  - apply preserves_ret.
  - cbn [issuesLoop]. apply preserves_bind.
    + apply issueBody_preserves, Htemp, elem_of_cons. by left.
    + intros _. apply IH. intros m Hm. apply Htemp, elem_of_cons. by right.
Qed.

Lemma magazineBody_preserves magazine :
  (∀ metadata, metadata ∈ Issues magazine →
     issue_path E magazine metadata +:+ ".part" ≠ issue_path E m0 meta0) →
  preserves (file_kept E m0 meta0 n) (only_skip_logged m0 meta0) (magazineBody E ctx session magazine).
Proof.
  intros Htemp w Hinv. rewrite magazineBody_eq. cbn zeta.
  pose proof (issuesLoop_preserves magazine (Issues magazine) Htemp) as Hloop.
  destruct (fs w !! sanitize E (mTitle magazine)) as [d|] eqn:Hd.
  { by apply Hloop. }
  destruct (blocked E (now w) (sanitize E (mTitle magazine))) as [be|].
  { by apply Hloop. }
  destruct (fault E (now w)) as [e|].
  { split; [done|]. eexists.
    split; [cbn [snd]; do 2 apply continues_snoc; apply continues_refl|].
    by repeat constructor. }
  set (w1 := emit _ _ w).
  assert (Hinv1 : file_kept E m0 meta0 n w1).
  { unfold file_kept, w1 in *. cbn [fs emit]. rewrite lookup_insert_ne; [done|].
    intros Heq. rewrite Heq in Hd. congruence. }
  destruct (Hloop w1 Hinv1) as (Hinv2 & l & Hc & Hg).
  split; [done|]. eexists.
  split; [eapply continues_trans; [apply continues_emit|exact Hc]|].
  constructor; [done|done].
Qed.

Lemma magazinesLoop_preserves magazines :
  (∀ magazine metadata, magazine ∈ magazines → metadata ∈ Issues magazine →
     issue_path E magazine metadata +:+ ".part" ≠ issue_path E m0 meta0) →
  preserves (file_kept E m0 meta0 n) (only_skip_logged m0 meta0) (magazinesLoop E ctx session magazines).
Proof.
  induction magazines as [|magazine rest IH]; intros Htemp.
  - apply preserves_ret.
  - cbn [magazinesLoop]. apply preserves_bind.
    + apply magazineBody_preserves. intros m Hm.
      apply Htemp; [apply elem_of_cons; by left|done].
    + intros _. apply IH. intros m i Hm Hi.
      apply Htemp; [apply elem_of_cons; by right|done].
Qed.
End AlreadyDownloaded.

(** C7: when the file of an issue is at its final path, the turn of that
    issue consists of the log line "issue already downloaded" and nothing
    else: no metadata request, no fetch, no file call, the filesystem as it
    was.  Over a whole run of [downloadAllIssues], provided no issue of the
    batch has that path as its temporary path, the file is still there
    unchanged at the end and nothing else is ever logged about the issue. *)
Theorem existing_issue_is_skipped E ctx session magazines m0 meta0 n w :
  fs w !! issue_path E m0 meta0 = Some n →
  (∀ m meta, m ∈ magazines → meta ∈ Issues m →
     issue_path E m meta +:+ ".part" ≠ issue_path E m0 meta0) →
  (∀ magazine dir metadata w',
     is_Some (fs w' !! path_Join E dir (sanitize E (iTitle metadata) +:+ ".pdf")) →
     new_events w' (snd (issueBody E ctx session magazine dir metadata w'))
       = [EvInfo (mTitle magazine) (iTitle metadata) "issue already downloaded"]
     ∧ fs (snd (issueBody E ctx session magazine dir metadata w')) = fs w')
  ∧ fs (snd (downloadAllIssues E ctx session magazines w)) !! issue_path E m0 meta0
    = Some n
  ∧ (∀ msg,
       EvInfo (mTitle m0) (iTitle meta0) msg
         ∈ new_events w (snd (downloadAllIssues E ctx session magazines w)) →
       msg = "issue already downloaded").
Proof.
  intros Hn Htemp. split.
  - intros magazine dir metadata w' Hthere.
    rewrite (issueBody_skip E ctx session magazine dir metadata w' Hthere).
    cbn [snd]. split; [|done].
    by rewrite (continues_new_events _ _ _ (continues_emit _ _ _)).
  - destruct (magazinesLoop_preserves E ctx session m0 meta0 n magazines Htemp w Hn)
      as (Hinv & l & Hc & Hgood).
    unfold downloadAllIssues. unfold_M.
    destruct (magazinesLoop E ctx session magazines w) as [[] w1]. cbn [snd] in *.
    split; [done|]. intros msg Hin.
    rewrite (continues_new_events _ _ _ Hc) in Hin.
    apply list_elem_of_fmap in Hin as ([ev f] & Hev & Hin). cbn [fst] in Hev.
    rewrite Forall_forall in Hgood. by apply (Hgood _ Hin msg).
Qed.

Lemma existing_issue_is_skipped_sample :
  (∀ magazine dir metadata w',
     is_Some (fs w' !! path_Join (demo_env 200 no_fault) dir
                         (sanitize (demo_env 200 no_fault) (iTitle metadata) +:+ ".pdf")) →
     new_events w' (snd (issueBody (demo_env 200 no_fault) Background demo_session
                           magazine dir metadata w'))
       = [EvInfo (mTitle magazine) (iTitle metadata) "issue already downloaded"]
     ∧ fs (snd (issueBody (demo_env 200 no_fault) Background demo_session
                  magazine dir metadata w')) = fs w')
  ∧ fs (snd (downloadAllIssues (demo_env 200 no_fault) Background demo_session
               [demo_magazine] stocked_world))
      !! issue_path (demo_env 200 no_fault) demo_magazine {| iID := "i1"; iTitle := "One" |}
    = Some (File [Byte.x25; Byte.x50; Byte.x44; Byte.x46])
  ∧ (∀ msg,
       EvInfo (mTitle demo_magazine) (iTitle {| iID := "i1"; iTitle := "One" |}) msg
         ∈ new_events stocked_world
             (snd (downloadAllIssues (demo_env 200 no_fault) Background demo_session
                     [demo_magazine] stocked_world)) →
       msg = "issue already downloaded").
Proof.
  apply (existing_issue_is_skipped (demo_env 200 no_fault) Background demo_session
           [demo_magazine] demo_magazine {| iID := "i1"; iTitle := "One" |}
           (File [Byte.x25; Byte.x50; Byte.x44; Byte.x46]) stocked_world).
  - reflexivity.
  - intros m meta Hm Hmeta.
    apply elem_of_cons in Hm as [->|Hm]; [|by apply elem_of_nil in Hm].
    apply elem_of_cons in Hmeta as [->|Hmeta]; [vm_compute; discriminate|].
    apply elem_of_cons in Hmeta as [->|Hmeta]; [vm_compute; discriminate|].
    by apply elem_of_nil in Hmeta.
Defined.

(** ** A complete run

    Three pages [u0], [u1], [u2] of one sub-page each: the file of the
    issue holds the pages in the order 1, 2, 0, and no temporary file is
    left. *)
Example downloadAllIssues_sample :
  fs (snd (downloadAllIssues (demo_env 200 no_fault) Background demo_session
             [demo_magazine] empty_world)) !! "Mag/One.pdf"
    = Some (File [Byte.x75; Byte.x31; Byte.x01;
                  Byte.x75; Byte.x32; Byte.x01;
                  Byte.x75; Byte.x30; Byte.x01])
  ∧ fs (snd (downloadAllIssues (demo_env 200 no_fault) Background demo_session
               [demo_magazine] empty_world)) !! "Mag/One.pdf.part"
    = None
  ∧ fst (downloadAllIssues (demo_env 200 no_fault) Background demo_session
           [demo_magazine] empty_world) = None.
Proof. repeat split; vm_compute; reflexivity. Qed.

(** * Further properties *)

(** ** [sanitize] *)

Section SanitizeFacts.
Import Sanitize.
Variables (L N IsSpace : rune → bool).

Lemma re_s_32 : re_s 32 = true.
Proof. reflexivity. Qed.

Lemma kept_32 : kept L N 32 = true.
Proof. unfold kept. by rewrite re_s_32, !orb_true_r. Qed.

(** What holds of the runes going in, and of the space, holds of those
    coming out of the last three steps. *)
Lemma replaceInvalid_Forall (P : rune → Prop) s :
  P 32 → Forall P s → Forall P (replaceInvalid L N s).
Proof.
  intros H32 Hs. unfold replaceInvalid. apply Forall_map.
  eapply Forall_impl; [exact Hs|]. intros r Hr. simpl. by destruct (invalidChars L N r).
Qed.

Lemma collapse_Forall (P : rune → Prop) s : ∀ b,
  P 32 → Forall P s → Forall P (collapse b s).
Proof.
  induction s as [|r rest IH]; intros b H32 Hs; [constructor|].
  apply Forall_cons in Hs as [Hr Hrest]. simpl.
  destruct (re_s r); [destruct b|]; try constructor; auto.
Qed.

Lemma TrimLeft_Forall (P : rune → Prop) s : Forall P s → Forall P (TrimLeft IsSpace s).
Proof.
  induction s as [|r rest IH]; intros Hs; [constructor|]. simpl.
  destruct (IsSpace r); [|done]. apply IH. by apply Forall_cons in Hs as [_ ?].
Qed.

Lemma TrimRight_Forall (P : rune → Prop) s : Forall P s → Forall P (TrimRight IsSpace s).
Proof.
  induction s as [|r rest IH]; intros Hs; [constructor|].
  apply Forall_cons in Hs as [Hr Hrest]. simpl.
  specialize (IH Hrest). destruct (TrimRight IsSpace rest) as [|t ts].
  - destruct (IsSpace r); by repeat constructor.
  - by constructor.
Qed.

Lemma TrimSpace_Forall (P : rune → Prop) s : Forall P s → Forall P (TrimSpace IsSpace s).
Proof. intros Hs. by apply TrimRight_Forall, TrimLeft_Forall. Qed.

Lemma Replace_no_separator s : Forall (λ r, r ≠ 47 ∧ r ≠ 58) (Replace s).
Proof.
  induction s as [|r rest IH]; [constructor|].
  unfold Replace in *. simpl.
  destruct (r =? 47)%Z eqn:H47; simpl.
  { repeat (constructor; [lia|]). done. }
  destruct (r =? 58)%Z eqn:H58; simpl.
  { repeat (constructor; [lia|]). done. }
  constructor; [lia|done].
Qed.

Lemma replaceInvalid_kept s : Forall (λ r, kept L N r = true) (replaceInvalid L N s).
Proof.
  unfold replaceInvalid. apply Forall_map, Forall_forall. intros r _. simpl.
  unfold invalidChars. destruct (kept L N r) eqn:Hk; simpl; [done|apply kept_32].
Qed.

(** After the runs are collapsed, the only rune of [\s] left is the
    space. *)
Lemma collapse_shape (P : rune → Prop) s : ∀ b,
  Forall P s → Forall (λ r, r = 32 ∨ (P r ∧ re_s r = false)) (collapse b s).
Proof.
  induction s as [|r rest IH]; intros b Hs; [constructor|].
  apply Forall_cons in Hs as [Hr Hrest]. simpl.
  destruct (re_s r) eqn:Hre; [destruct b|]; try constructor; auto.
Qed.

Lemma single_spaced_cons a b rest :
  single_spaced (a :: b :: rest) = negb (re_s a && re_s b) && single_spaced (b :: rest).
Proof. reflexivity. Qed.

Lemma collapse_single_spaced s : ∀ b,
  single_spaced (collapse b s) = true
  ∧ (b = true → ∀ r, head (collapse b s) = Some r → re_s r = false).
Proof.
  induction s as [|r rest IH]; intros b; [done|]. simpl.
  destruct (re_s r) eqn:Hre; [destruct b|].
  - apply IH.
  - split; [|done]. destruct (IH true) as [Hs Hh].
    destruct (collapse true rest) as [|x xs] eqn:Hc; [done|].
    rewrite single_spaced_cons, (Hh eq_refl x eq_refl), andb_false_r. simpl.
    exact Hs.
  - split.
    + destruct (IH false) as [Hs _].
      destruct (collapse false rest) as [|x xs] eqn:Hc; [done|].
      rewrite single_spaced_cons, Hre. simpl. exact Hs.
    + intros _ r' [= <-]. done.
Qed.

Lemma single_spaced_tail r s : single_spaced (r :: s) = true → single_spaced s = true.
Proof.
  destruct s as [|x xs]; [done|]. rewrite single_spaced_cons.
  intros H. by apply andb_true_iff in H as [_ ?].
Qed.

Lemma TrimLeft_single_spaced s :
  single_spaced s = true → single_spaced (TrimLeft IsSpace s) = true.
Proof.
  induction s as [|r rest IH]; intros Hs; [done|]. simpl.
  destruct (IsSpace r); [|done]. by eapply IH, single_spaced_tail.
Qed.

Lemma TrimRight_head s t ts : TrimRight IsSpace s = t :: ts → ∃ rest, s = t :: rest.
Proof.
  destruct s as [|r rest]; [done|]. simpl.
  destruct (TrimRight IsSpace rest) as [|x xs].
  - destruct (IsSpace r); [done|]. intros [= <- _]. by eexists.
  - intros [= <- _]. by eexists.
Qed.

Lemma TrimRight_single_spaced s :
  single_spaced s = true → single_spaced (TrimRight IsSpace s) = true.
Proof.
  induction s as [|r rest IH]; intros Hs; [done|]. simpl.
  pose proof (single_spaced_tail _ _ Hs) as Hrest. specialize (IH Hrest).
  destruct (TrimRight IsSpace rest) as [|t ts] eqn:Ht.
  - by destruct (IsSpace r).
  - destruct (TrimRight_head _ _ _ Ht) as [rest' ->].
    rewrite single_spaced_cons in Hs |- *.
    apply andb_true_iff in Hs as [Hrt _]. by rewrite Hrt.
Qed.

(** The ends of a trimmed name. *)
Lemma TrimLeft_head s r : head (TrimLeft IsSpace s) = Some r → IsSpace r = false.
Proof.
  induction s as [|x rest IH]; [done|]. simpl.
  destruct (IsSpace x) eqn:Hx; [done|]. by intros [= <-].
Qed.

Lemma TrimRight_keeps_head s r :
  (∀ x, head s = Some x → IsSpace x = false) →
  head (TrimRight IsSpace s) = Some r → IsSpace r = false.
Proof.
  destruct s as [|x rest]; [done|]. simpl. intros Hh.
  destruct (TrimRight IsSpace rest) as [|t ts].
  - destruct (IsSpace x); [done|]. intros [= <-]. by apply Hh.
  - intros [= <-]. by apply Hh.
Qed.

Lemma TrimRight_last s r : last (TrimRight IsSpace s) = Some r → IsSpace r = false.
Proof.
  induction s as [|x rest IH]; [done|]. simpl.
  destruct (TrimRight IsSpace rest) as [|t ts] eqn:Ht.
  - destruct (IsSpace x) eqn:Hx; [done|]. by intros [= <-].
  - intros Hl. apply IH. by rewrite last_cons_cons in Hl.
Qed.

(** Where each step changes nothing. *)
Lemma Replace_id s : Forall (λ r, r ≠ 47 ∧ r ≠ 58) s → Replace s = s.
Proof.
  induction 1 as [|r rest [H47 H58] _ IH]; [done|].
  unfold Replace in *. simpl. rewrite IH.
  apply Z.eqb_neq in H47, H58. by rewrite H47, H58.
Qed.

Lemma replaceInvalid_id s :
  Forall (λ r, kept L N r = true) s → replaceInvalid L N s = s.
Proof.
  induction 1 as [|r rest Hr _ IH]; [done|].
  unfold replaceInvalid, invalidChars in *. simpl. by rewrite Hr, IH.
Qed.

Lemma collapse_id s : ∀ b,
  Forall (λ r, re_s r = true → r = 32) s →
  single_spaced s = true →
  (b = true → ∀ r, head s = Some r → re_s r = false) →
  collapse b s = s.
Proof.
  induction s as [|r rest IH]; intros b Hsp Hss Hb; [done|].
  apply Forall_cons in Hsp as [Hr Hrest]. simpl.
  pose proof (single_spaced_tail _ _ Hss) as Htail.
  destruct (re_s r) eqn:Hre.
  - destruct b; [by rewrite (Hb eq_refl r eq_refl) in Hre|].
    rewrite (Hr eq_refl). f_equal. apply IH; [done|done|].
    intros _ x Hx. destruct rest as [|y ys]; [done|]. injection Hx as ->.
    rewrite single_spaced_cons, Hre in Hss. simpl in Hss.
    apply andb_true_iff in Hss as [Hy _]. by apply negb_true_iff in Hy.
  - f_equal. by apply IH.
Qed.

Lemma TrimLeft_id s :
  (∀ r, head s = Some r → IsSpace r = false) → TrimLeft IsSpace s = s.
Proof. destruct s as [|r rest]; [done|]. simpl. intros H. by rewrite (H r eq_refl). Qed.

Lemma TrimRight_id s :
  (∀ r, last s = Some r → IsSpace r = false) → TrimRight IsSpace s = s.
Proof.
  induction s as [|r rest IH]; [done|]. intros Hl. simpl.
  destruct rest as [|x xs].
  - simpl. by rewrite (Hl r eq_refl).
  - rewrite IH; [done|]. intros y Hy. apply Hl. by rewrite last_cons_cons.
Qed.
End SanitizeFacts.

(** X1: a sanitized name holds neither a slash nor a colon, whatever the
    name was and whatever the Unicode tables say: as a file name it stays
    in its directory. *)
Theorem sanitize_no_separator L N IsSpace name :
  Forall (λ r, r ≠ 47 ∧ r ≠ 58) (Sanitize.sanitize L N IsSpace name).
Proof.
  unfold Sanitize.sanitize.
  apply TrimSpace_Forall, collapse_Forall; [lia|].
  apply replaceInvalid_Forall; [lia|]. apply Replace_no_separator.
Qed.

(** The shape of a sanitized name, in the terms of the steps. *)
Lemma sanitize_shape L N IsSpace name :
  Forall (λ r, r = 32 ∨ (Sanitize.kept L N r = true ∧ Sanitize.re_s r = false))
    (Sanitize.sanitize L N IsSpace name)
  ∧ Sanitize.single_spaced (Sanitize.sanitize L N IsSpace name) = true
  ∧ (∀ r, head (Sanitize.sanitize L N IsSpace name) = Some r → IsSpace r = false)
  ∧ (∀ r, last (Sanitize.sanitize L N IsSpace name) = Some r → IsSpace r = false).
Proof.
  unfold Sanitize.sanitize. split; [|split; [|split]].
  - apply TrimSpace_Forall.
    apply (collapse_shape (λ r, Sanitize.kept L N r = true)), replaceInvalid_kept.
  - apply TrimRight_single_spaced, TrimLeft_single_spaced.
    apply collapse_single_spaced.
  - unfold Sanitize.TrimSpace. intros r. apply TrimRight_keeps_head.
    intros x. apply TrimLeft_head.
  - unfold Sanitize.TrimSpace. intros r. apply TrimRight_last.
Qed.

(** X2: a sanitized name is made of single spaces and of letters, numbers
    and the characters ['!&,.@-], none of them a tab or a line break; no
    two spaces stand side by side; and it neither begins nor ends with
    white space. *)
Theorem sanitize_normal_form L N IsSpace name :
  Forall (λ r, r = 32
               ∨ ((L r = true ∨ N r = true ∨ Sanitize.listed r = true)
                  ∧ Sanitize.re_s r = false))
    (Sanitize.sanitize L N IsSpace name)
  ∧ Sanitize.single_spaced (Sanitize.sanitize L N IsSpace name) = true
  ∧ (∀ r, head (Sanitize.sanitize L N IsSpace name) = Some r → IsSpace r = false)
  ∧ (∀ r, last (Sanitize.sanitize L N IsSpace name) = Some r → IsSpace r = false).
Proof.
  destruct (sanitize_shape L N IsSpace name) as (Hshape & Hss & Hhead & Hlast).
  split; [|done].
  eapply Forall_impl; [exact Hshape|].
  intros r [->|[Hk Hre]]; [by left|]. right. split; [|done].
  unfold Sanitize.kept in Hk. rewrite Hre, orb_false_r in Hk.
  apply orb_true_iff in Hk as [Hk|Hk]; [|by auto].
  apply orb_true_iff in Hk as [Hk|Hk]; auto.
Qed.

(** X3: sanitizing a sanitized name changes nothing. *)
Theorem sanitize_idempotent L N IsSpace name :
  Sanitize.sanitize L N IsSpace (Sanitize.sanitize L N IsSpace name)
  = Sanitize.sanitize L N IsSpace name.
Proof.
  assert (Hsep : Forall (λ r, r ≠ 47 ∧ r ≠ 58) (Sanitize.sanitize L N IsSpace name)).
  { unfold Sanitize.sanitize.
    apply TrimSpace_Forall, collapse_Forall; [lia|].
    apply replaceInvalid_Forall; [lia|]. apply Replace_no_separator. }
  pose proof (sanitize_shape L N IsSpace name) as (Hshape & Hss & Hhead & Hlast).
  set (t := Sanitize.sanitize L N IsSpace name) in *.
  unfold Sanitize.sanitize at 1. rewrite (Replace_id t Hsep).
  rewrite replaceInvalid_id.
  2:{ eapply Forall_impl; [exact Hshape|]. by intros r [->|[Hk _]]; [apply kept_32|]. }
  rewrite collapse_id; [|..|done].
  - unfold Sanitize.TrimSpace. rewrite TrimLeft_id by done. by apply TrimRight_id.
  - eapply Forall_impl; [exact Hshape|]. intros r [->|[_ Hre]]; [done|].
    by rewrite Hre.
  - done.
Qed.

(** ** [main] *)

Lemma downloadAllIssues_returns_nil E ctx session magazines w :
  fst (downloadAllIssues E ctx session magazines w) = None.
Proof.
  unfold downloadAllIssues. unfold_M.
  by destruct (magazinesLoop E ctx session magazines w).
Qed.

(** X4: when [flag.Parse] ends the process (status 2 on a flag it
    rejects, its own status on a request for help), nothing but its usage
    text was said, no call was made and the world is as it was.  When
    [flag.Parse] returns, [main] ends with status 0 exactly when both
    credentials are there (from the flag, or else from the environment),
    the login succeeds and the list of magazines is obtained, and with
    status 1 in every other case.  What happens to the issues afterwards
    does not change the status. *)
Theorem main_exit_status S E sh w :
  (flag_Parse sh = BadFlag → main S E sh w = ((2, [MUsage]), w))
  ∧ (∀ status, flag_Parse sh = Help status →
       main S E sh w = ((status, [MUsage]), w))
  ∧ (flag_Parse sh = Parsed →
     (fst (fst (main S E sh w)) = 0
      ↔ credential (flag_email sh) (os_Getenv sh "ZINIO_EMAIL") ≠ ""
        ∧ credential (flag_password sh) (os_Getenv sh "ZINIO_PASSWORD") ≠ ""
        ∧ ∃ session magazines,
            Login S (credential (flag_email sh) (os_Getenv sh "ZINIO_EMAIL"))
              (credential (flag_password sh) (os_Getenv sh "ZINIO_PASSWORD"))
            = Ok session
            ∧ GetMagazines S session = Ok magazines)
     ∧ (fst (fst (main S E sh w)) = 0 ∨ fst (fst (main S E sh w)) = 1)).
Proof.
  split; [intros HP; unfold main; by rewrite HP|].
  split; [intros status HP; unfold main; by rewrite HP|].
  intros HP. unfold main, credential. rewrite HP.
  set (login := if decide (flag_email sh = "") then _ else _).
  set (pw := if decide (flag_password sh = "") then _ else _).
  case_bool_decide as Hcred.
  { split; [|by right]. split; [done|]. intros (Hl & Hp & _). tauto. }
  destruct (Login S login pw) as [session|e] eqn:Hlogin.
  2:{ split; [|by right]. split; [done|]. by intros (_ & _ & s' & ms & [=] & _). }
  destruct (GetMagazines S session) as [magazines|e] eqn:Hmags.
  2:{ split; [|by right]. split; [done|].
      intros (_ & _ & s' & ms & [= <-] & Hm). congruence. }
  pose proof (downloadAllIssues_returns_nil E Background session magazines w) as Hnil.
  destruct (downloadAllIssues E Background session magazines w) as [err w'].
  cbn [fst] in Hnil. subst err. cbn [fst].
  split; [|by left]. split; [|done]. intros _.
  split; [tauto|]. split; [tauto|]. by exists session, magazines.
Qed.

(** X5: when [main] ends with status 1 it has made no request and touched
    no file; and it never calls [Login] with an empty email or password. *)
Theorem main_failure_has_no_effect S E sh w :
  (fst (fst (main S E sh w)) = 1 → snd (main S E sh w) = w)
  ∧ (∀ login password err,
       MLogin login password err ∈ snd (fst (main S E sh w)) →
       login ≠ "" ∧ password ≠ "").
Proof.
  unfold main. destruct (flag_Parse sh) as [| |status].
  2,3: split; [done|]; intros l p e H; cbn [fst snd] in H; mem_cases H; done.
  set (login := if decide (flag_email sh = "") then _ else _).
  set (pw := if decide (flag_password sh = "") then _ else _).
  case_bool_decide as Hcred.
  { split; [done|]. intros l p e H. cbn [fst snd] in H. mem_cases H. done. }
  assert (Hne : login ≠ "" ∧ pw ≠ "") by tauto.
  destruct (Login S login pw) as [session|e].
  2:{ split; [done|]. intros l p e' H. cbn [fst snd app] in H.
      mem_cases H; by simplify_eq. }
  destruct (GetMagazines S session) as [magazines|e].
  2:{ split; [done|]. intros l p e' H. cbn [fst snd app] in H.
      mem_cases H; by simplify_eq. }
  pose proof (downloadAllIssues_returns_nil E Background session magazines w) as Hnil.
  destruct (downloadAllIssues E Background session magazines w) as [err w'].
  cbn [fst] in Hnil. subst err. cbn [fst snd app].
  split; [done|]. intros l p e' H. mem_cases H; by simplify_eq.
Qed.

(** ** The requests of [downloadPage] and [downloadAllPages] *)

Lemma requests_app (l1 l2 : list Event) : requests (l1 ++ l2) = requests l1 ++ requests l2.
Proof. unfold requests. apply omap_app. Qed.


Lemma downloadPage_requests E ctx url w :
  ∃ l, continues w l (snd (downloadPage E ctx url w))
    ∧ Forall (λ x, is_net (fst x) = true) l
    ∧ ((WithTimeout E ctx (now w) = None ∧ requests (map fst l) = [url])
       ∨ (∃ e, WithTimeout E ctx (now w) = Some e
               ∧ requests (map fst l) = []
               ∧ fst (downloadPage E ctx url w) = (page_zero, Some e))).
Proof.
  rewrite downloadPage_eq.
  destruct (WithTimeout E ctx (now w)) as [e|].
  { eexists. split; [apply continues_emit|]. split; [by repeat constructor|].
    right. by exists e. }
  destruct (http_Do E (now w) url) as [resp|e].
  2:{ eexists. split; [apply continues_emit|]. split; [by repeat constructor|].
      by left. }
  cbn zeta. destruct (Body resp) as [b|e];
    (eexists; split; [do 2 apply continues_snoc; apply continues_refl|]);
    (split; [by repeat constructor|]); by left.
Qed.


Section RequestOrder.
Variable E : Env.
Variable ctx : Ctx.
Variable issue : Issue.

(** The loop asks for the pages one after the other, by ascending index,
    and stops asking at the first failure. *)
Lemma pagesLoop_requests n : ∀ i0 pages w,
  ∃ l k, continues w l (snd (pagesLoop E ctx issue n (Z.of_nat i0) pages w))
    ∧ (k ≤ n)%nat
    ∧ requests (map fst l) = map (λ i, fst (GetURL issue (Z.of_nat i))) (seq i0 k)
    ∧ (snd (fst (pagesLoop E ctx issue n (Z.of_nat i0) pages w)) = None → k = n).
Proof.
  induction n as [|n IH]; intros i0 pages w.
  - exists [], 0%nat. split; [apply continues_refl|]. done.
  - cbn [pagesLoop]. unfold_M.
    destruct (GetURL issue (Z.of_nat i0)) as [url [e|]] eqn:Hurl.
    { exists [], 0%nat. split; [apply continues_refl|]. split; [lia|]. done. }
    destruct (downloadPage_requests E ctx url w) as (l1 & Hc1 & _ & Hreq1).
    destruct (downloadPage E ctx url w) as [[pg [e|]] w1]; cbn [fst snd] in *.
    { destruct Hreq1 as [[_ Hreq1]|(e' & _ & Hreq1 & _)].
      - exists l1, 1%nat. split; [done|]. split; [lia|].
        split; [|done]. simpl. by rewrite Hreq1, Hurl.
      - exists l1, 0%nat. split; [done|]. split; [lia|]. by rewrite Hreq1. }
    destruct Hreq1 as [[_ Hreq1]|(e' & _ & _ & [=])].
    replace (Z.of_nat i0 + 1) with (Z.of_nat (S i0)) by lia.
    destruct (IH (S i0) (append page_zero (growth E) pages pg) w1)
      as (l2 & k & Hc2 & Hk & Hreq2 & Hnone).
    exists (l1 ++ l2), (S k). split; [by eapply continues_trans|].
    split; [lia|]. split.
    + rewrite map_app, requests_app, Hreq1, Hreq2. simpl. by rewrite Hurl.
    + intros Hn. by rewrite (Hnone Hn).
Qed.
End RequestOrder.

(** X7: [downloadAllPages] requests the pages strictly in index order: the
    URLs it asks for are those of pages 0, 1, ..., k-1 for some k up to
    [PageCount], each once, and k is [PageCount] when it returns no
    error. *)
Theorem downloadAllPages_requests_in_order E ctx issue w :
  ∃ k, (k ≤ Z.to_nat (PageCount issue))%nat
    ∧ requests (new_events w (snd (downloadAllPages E ctx issue w)))
      = map (λ i, fst (GetURL issue (Z.of_nat i))) (seq 0 k)
    ∧ (snd (fst (downloadAllPages E ctx issue w)) = None →
       k = Z.to_nat (PageCount issue)).
Proof.
  destruct (pagesLoop_requests E ctx issue (Z.to_nat (PageCount issue)) 0%nat
              pages_nil w) as (l & k & Hc & Hk & Hreq & Hnone).
  change (Z.of_nat 0) with 0 in *.
  unfold downloadAllPages. unfold_M.
  destruct (pagesLoop E ctx issue (Z.to_nat (PageCount issue)) 0 pages_nil w)
    as [[pages [e|]] w1]; cbn [fst snd] in *.
  - exists k. rewrite (continues_new_events _ _ _ Hc). done.
  - exists k. rewrite (continues_new_events _ _ _ Hc). done.
Qed.

(** ** [unlockAndMerge]: size of the document, first failure *)

Section MergeMore.
Variable E : Env.
Variable password : bytes.

Lemma merge_container_length p sps :
  merge_container E password p = Some sps → length sps = container_pages E p.
Proof.
  unfold merge_container, container_pages.
  destruct (NewPdfReader E p) as [r|]; [|done].
  destruct (Decrypt r password) as [[|]|]; [|done..].
  destruct (GetNumPages r) as [n|]; [|done].
  intros Hm%length_mapM. by rewrite length_seq in Hm.
Qed.

Lemma merged_length pages ls :
  mapM (merge_container E password) pages = Some ls →
  length (concat ls) = sum_list (map (container_pages E) pages).
Proof.
  intros Hm%mapM_Some_1.
  induction Hm as [|p sps pages ls Hp _ IH]; [done|]. simpl.
  by rewrite length_app, IH, (merge_container_length p sps Hp).
Qed.

(** The containers already merged carry over to the rest of the loop. *)
Lemma containersLoop_app good ls tail w0 :
  mapM (merge_container E password) good = Some ls →
  containersLoop E (good ++ tail) password w0
  = containersLoop E tail password (w0 ++ concat ls).
Proof.
  revert ls w0. induction good as [|p good IH]; intros ls w0 Hm.
  - injection Hm as <-. simpl. by rewrite app_nil_r.
  - rewrite mapM_cons_option in Hm.
    destruct (merge_container E password p) as [sps|] eqn:Hp; [|done].
    destruct (mapM (merge_container E password) good) as [k|] eqn:Hk; [|done].
    injection Hm as <-.
    rewrite <- app_comm_cons. cbn [containersLoop].
    unfold merge_container in Hp.
    destruct (NewPdfReader E p) as [r|]; [|done].
    destruct (Decrypt r password) as [[|]|]; [|done..].
    destruct (GetNumPages r) as [n|]; [|done].
    rewrite (subPagesLoop_Some E r _ 0%nat w0 sps Hp : subPagesLoop _ _ _ 0 _ = _).
    rewrite (IH k _ eq_refl). simpl. by rewrite <- app_assoc.
Qed.

(** At a container that cannot be merged the loop returns at once: what
    comes after it plays no part. *)
Lemma containersLoop_stops p rest w0 :
  merge_container E password p = None →
  containersLoop E (p :: rest) password w0 = containersLoop E [p] password w0.
Proof.
  intros Hp. cbn [containersLoop]. unfold merge_container in Hp.
  destruct (NewPdfReader E p) as [r|]; [|done].
  destruct (Decrypt r password) as [[|]|]; [|done..].
  destruct (GetNumPages r) as [n|]; [|done].
  destruct (subPagesLoop_None E r _ 0%nat w0 Hp) as [e He].
  change (Z.of_nat 0) with 0 in He. by rewrite He.
Qed.
End MergeMore.

(** X8: the document [unlockAndMerge] returns has as many pages as the
    containers announce together. *)
Theorem unlockAndMerge_page_count E pages password w :
  unlockAndMerge E pages password = (Some w, None) →
  length w = sum_list (map (container_pages E) (view pages)).
Proof.
  unfold unlockAndMerge. intros Hrun.
  destruct (mapM (merge_container E password) (view pages)) as [ls|] eqn:Hm.
  - rewrite (containersLoop_Some E password _ NewPdfWriter ls Hm) in Hrun.
    injection Hrun as <-. simpl. by eapply merged_length.
  - destruct (containersLoop_None E password _ NewPdfWriter Hm) as [e He].
    congruence.
Qed.

Lemma unlockAndMerge_page_count_sample :
  length [ {| Contents := [Byte.x41; Byte.x01]; Annots := None |};
           {| Contents := [Byte.x41; Byte.x02]; Annots := None |};
           {| Contents := [Byte.x42; Byte.x01]; Annots := None |};
           {| Contents := [Byte.x42; Byte.x02]; Annots := None |} ]
  = sum_list (map (container_pages (demo_env_of 2 200 no_fault)) (view demo_two_pages)).
Proof.
  apply (unlockAndMerge_page_count (demo_env_of 2 200 no_fault) demo_two_pages
           (list_byte_of_string "secret")).
  reflexivity.
Defined.

(** X9: [unlockAndMerge] stops at the first container that does not
    parse, does not open or does not give up its sub-pages: it returns an
    error and no document, and the containers after that one play no part
    in the result. *)
Theorem unlockAndMerge_stops_at_first_failure E pages pages' password good p rest :
  view pages = good ++ p :: rest →
  view pages' = good ++ [p] →
  is_Some (mapM (merge_container E password) good) →
  merge_container E password p = None →
  unlockAndMerge E pages password = unlockAndMerge E pages' password
  ∧ ∃ e, unlockAndMerge E pages password = (None, Some e).
Proof.
  intros Hv Hv' [ls Hgood] Hp. unfold unlockAndMerge. rewrite Hv, Hv'.
  rewrite !(containersLoop_app E password good ls _ _ Hgood).
  rewrite (containersLoop_stops E password p rest _ Hp).
  split; [done|].
  apply containersLoop_None. rewrite mapM_cons_option. by rewrite Hp.
Qed.

Lemma unlockAndMerge_stops_at_first_failure_sample :
  unlockAndMerge (demo_env_of 2 200 no_fault) demo_two_pages (list_byte_of_string "wrong")
  = unlockAndMerge (demo_env_of 2 200 no_fault)
      (append page_zero (λ n, n) pages_nil {| reader := Some [Byte.x41] |})
      (list_byte_of_string "wrong")
  ∧ ∃ e, unlockAndMerge (demo_env_of 2 200 no_fault) demo_two_pages
           (list_byte_of_string "wrong") = (None, Some e).
Proof.
  apply (unlockAndMerge_stops_at_first_failure (demo_env_of 2 200 no_fault)
           demo_two_pages
           (append page_zero (λ n, n) pages_nil {| reader := Some [Byte.x41] |})
           (list_byte_of_string "wrong")
           [] {| reader := Some [Byte.x41] |} [ {| reader := Some [Byte.x42] |} ]).
  - reflexivity.
  - reflexivity.
  - exists []. reflexivity.
  - reflexivity.
Defined.

(** ** [save]: what an error means for the destination *)

Section SaveMore.
Variable E : Env.
Variables (session : Session) (pages : slice page) (password path : string).

Lemma unlockAndMerge_spec_Some doc :
  merge_spec E (list_byte_of_string password) (view pages) = Some doc →
  unlockAndMerge E pages (list_byte_of_string password) = (Some doc, None).
Proof.
  unfold merge_spec, unlockAndMerge.
  destruct (mapM _ (view pages)) as [ls|] eqn:Hm; [|done].
  intros [= <-]. by rewrite (containersLoop_Some E _ _ NewPdfWriter ls Hm).
Qed.

Lemma unlockAndMerge_spec_None :
  merge_spec E (list_byte_of_string password) (view pages) = None →
  ∃ e, unlockAndMerge E pages (list_byte_of_string password) = (None, Some e).
Proof.
  unfold merge_spec, unlockAndMerge.
  destruct (mapM _ (view pages)) as [ls|] eqn:Hm; [done|].
  intros _. by apply containersLoop_None.
Qed.

(** The run of [save] in which nothing fails. *)
Lemma save_success w doc :
  unlockAndMerge E pages (list_byte_of_string password) = (Some doc, None) →
  fs w !! (path +:+ ".part") ≠ Some Dir →
  (∀ k, (k < 4)%nat → fault E (now w + k) = None) →
  fst (save E session pages password path w) = None
  ∧ fs (snd (save E session pages password path w))
    = <[path := File (encode E doc)]> (delete (path +:+ ".part") (fs w)).
Proof.
  intros Hdoc Hdir Hfault.
  pose proof (Hfault 0%nat ltac:(lia)) as H0. rewrite Nat.add_0_r in H0.
  pose proof (Hfault 1%nat ltac:(lia)) as H1.
  pose proof (Hfault 2%nat ltac:(lia)) as H2.
  pose proof (Hfault 3%nat ltac:(lia)) as H3.
  replace (now w + 1)%nat with (S (now w)) in H1 by lia.
  replace (now w + 2)%nat with (S (S (now w))) in H2 by lia.
  replace (now w + 3)%nat with (S (S (S (now w)))) in H3 by lia.
  assert (Hc : Create_error E (path +:+ ".part") w = None).
  { unfold Create_error. rewrite H0.
    by destruct (fs w !! (path +:+ ".part")) as [[|]|]. }
  rewrite (save_created E session pages password path w doc Hdoc Hc). cbn zeta.
  rewrite (Write_error_ok E _ H1), (written_ok E _ doc H1), H2, H3.
  cbn [fst snd fs emit Wrapf]. split; [done|].
  by rewrite !delete_insert_eq.
Qed.
End SaveMore.

(** X10: when [save] returns an error, what is at the final path is what
    was there before the call. *)
Theorem save_error_keeps_destination E session pages password path w e :
  fst (save E session pages password path w) = Some e →
  fs (snd (save E session pages password path w)) !! path = fs w !! path.
Proof.
  destruct (unlockAndMerge_cases E pages (list_byte_of_string password))
    as [[doc Hdoc]|[me He]].
  2:{ by rewrite (save_unlock_failed E session pages password path w me)
        by (by rewrite He). }
  destruct (Create_error E (path +:+ ".part") w) as [ce|] eqn:Hc.
  { by rewrite (save_create_failed E session pages password path w doc ce Hdoc Hc). }
  rewrite (save_created E session pages password path w doc Hdoc Hc). cbn zeta.
  destruct (Write_error E (S (now w))) as [we|];
    [|destruct (fault E (S (S (now w)))) as [cle|];
      [|destruct (fault E (S (S (S (now w))))) as [re|]]];
    cbn [fst snd fs emit Wrapf]; intros Herr; try discriminate;
    by rewrite !lookup_path_insert_temp.
Qed.

Lemma save_error_keeps_destination_sample :
  fs (snd (save (demo_env 200 (fault_at 1 "write: no space left on device"))
             demo_session demo_pages "secret" "Mag/One.pdf" stocked_world))
    !! "Mag/One.pdf"
  = fs stocked_world !! "Mag/One.pdf".
Proof.
  apply (save_error_keeps_destination
           (demo_env 200 (fault_at 1 "write: no space left on device"))
           demo_session demo_pages "secret" "Mag/One.pdf" stocked_world
           "failed to save Mag/One.pdf: write: no space left on device").
  reflexivity.
Defined.

(** X11: a temporary file left behind by an earlier run is no obstacle:
    when nothing fails, [save] truncates it, writes the document into it
    and renames it, so that the final path holds the document and nothing
    of the old bytes, and the temporary path is free again. *)
Theorem save_reuses_stale_temp E session pages password path w doc junk :
  unlockAndMerge E pages (list_byte_of_string password) = (Some doc, None) →
  fs w !! (path +:+ ".part") = Some (File junk) →
  (∀ k, (k < 4)%nat → fault E (now w + k) = None) →
  fst (save E session pages password path w) = None
  ∧ fs (snd (save E session pages password path w)) !! path
    = Some (File (encode E doc))
  ∧ fs (snd (save E session pages password path w)) !! (path +:+ ".part") = None.
Proof.
  intros Hdoc Hjunk Hfault.
  destruct (save_success E session pages password path w doc Hdoc) as [Hnil Hfs];
    [by rewrite Hjunk|done|].
  split; [done|]. rewrite Hfs. split.
  - apply lookup_insert_eq.
  - rewrite lookup_insert_ne by (apply not_eq_sym, temp_ne_path).
    apply lookup_delete_eq.
Qed.

Lemma save_reuses_stale_temp_sample :
  fst (save (demo_env 200 no_fault) demo_session demo_pages "secret" "Mag/One.pdf"
         {| fs := <["Mag/One.pdf.part" := File [Byte.x00; Byte.x01; Byte.x02]]> ∅;
            trace := [] |}) = None
  ∧ fs (snd (save (demo_env 200 no_fault) demo_session demo_pages "secret" "Mag/One.pdf"
               {| fs := <["Mag/One.pdf.part" := File [Byte.x00; Byte.x01; Byte.x02]]> ∅;
                  trace := [] |})) !! "Mag/One.pdf"
    = Some (File (encode (demo_env 200 no_fault)
                    [{| Contents := [Byte.x25; Byte.x01]; Annots := None |}]))
  ∧ fs (snd (save (demo_env 200 no_fault) demo_session demo_pages "secret" "Mag/One.pdf"
               {| fs := <["Mag/One.pdf.part" := File [Byte.x00; Byte.x01; Byte.x02]]> ∅;
                  trace := [] |})) !! ("Mag/One.pdf" +:+ ".part") = None.
Proof.
  apply (save_reuses_stale_temp (demo_env 200 no_fault) demo_session demo_pages
           "secret" "Mag/One.pdf"
           {| fs := <["Mag/One.pdf.part" := File [Byte.x00; Byte.x01; Byte.x02]]> ∅;
              trace := [] |}
           [{| Contents := [Byte.x25; Byte.x01]; Annots := None |}]
           [Byte.x00; Byte.x01; Byte.x02]).
  - reflexivity.
  - reflexivity.
  - intros k _. reflexivity.
Defined.

(** X12: when the pages cannot be merged (a container does not parse, does
    not open with the password, or does not give up a sub-page), [save]
    makes no file call at all: the world is as it was, and the error names
    the destination. *)
Theorem save_merge_failure_touches_nothing E session pages password path w :
  merge_spec E (list_byte_of_string password) (view pages) = None →
  snd (save E session pages password path w) = w
  ∧ ∃ e, fst (save E session pages password path w)
         = Some ("failed to unlock and merge pages for " +:+ path +:+ ": " +:+ e).
Proof.
  intros Hspec.
  destruct (unlockAndMerge_spec_None E pages password Hspec) as [e He].
  rewrite (save_unlock_failed E session pages password path w e) by (by rewrite He).
  split; [done|]. by exists e.
Qed.

Lemma save_merge_failure_touches_nothing_sample :
  snd (save (demo_env 200 no_fault) demo_session demo_pages "wrong" "Mag/One.pdf"
         empty_world) = empty_world
  ∧ ∃ e, fst (save (demo_env 200 no_fault) demo_session demo_pages "wrong"
                "Mag/One.pdf" empty_world)
         = Some ("failed to unlock and merge pages for " +:+ "Mag/One.pdf" +:+ ": " +:+ e).
Proof.
  apply (save_merge_failure_touches_nothing (demo_env 200 no_fault) demo_session
           demo_pages "wrong" "Mag/One.pdf" empty_world).
  reflexivity.
Defined.

(** ** The function literal of [downloadAllIssues], from metadata to file *)

Section EndToEnd.
Variable E : Env.
Variable ctx : Ctx.
Variable session : Session.

(** As [pagesLoop_all_ok], with the clock and the filesystem at the end. *)
Lemma pagesLoop_all_ok_world issue (u : nat → string) (b : nat → bytes) n :
  ∀ i0 pages w,
  wf pages →
  (∀ k, (k < n)%nat →
        GetURL issue (Z.of_nat (i0 + k)) = (u (i0 + k)%nat, None)
        ∧ fetch_ok E ctx (now w + 2 * k) (u (i0 + k)%nat) (b (i0 + k)%nat)) →
  ∃ pages' w',
    pagesLoop E ctx issue n (Z.of_nat i0) pages w = ((pages', None), w')
    ∧ wf pages'
    ∧ view pages' = view pages ++ map (λ i, {| reader := Some (b i) |}) (seq i0 n)
    ∧ now w' = (now w + 2 * n)%nat
    ∧ fs w' = fs w.
Proof.
  induction n as [|n IH]; intros i0 pages w Hwf Hall.
  - exists pages, w. simpl. rewrite app_nil_r.
    repeat split; [done|lia].
  - destruct (Hall 0%nat ltac:(lia)) as [Hurl Hfetch].
    rewrite Nat.add_0_r in Hurl. rewrite Nat.mul_0_r, !Nat.add_0_r in Hfetch.
    cbn [pagesLoop]. rewrite Hurl. unfold_M.
    rewrite (downloadPage_ok E ctx _ _ _ Hfetch).
    replace (Z.of_nat i0 + 1) with (Z.of_nat (S i0)) by lia.
    set (w2 := emit _ _ (emit _ _ w)).
    destruct (IH (S i0) (append page_zero (growth E) pages {| reader := Some (b i0) |}) w2)
      as (pages' & w' & Hrun & Hwf' & Hview & Hnow & Hfs).
    + by apply wf_append.
    + intros k Hk. destruct (Hall (S k) ltac:(lia)) as [Hu Hf].
      replace (S i0 + k)%nat with (i0 + S k)%nat by lia.
      split; [done|].
      replace (now w2 + 2 * k)%nat with (now w + 2 * S k)%nat; [done|].
      unfold w2. rewrite !now_emit. lia.
    + exists pages', w'. split; [done|]. split; [done|]. split.
      * rewrite Hview, view_append by done. by rewrite <- app_assoc.
      * split; [|by rewrite Hfs]. rewrite Hnow. unfold w2.
        rewrite !now_emit. lia.
Qed.

Lemma downloadAllPages_all_ok_world issue (u : nat → string) (b : nat → bytes) w :
  (∀ i, (i < Z.to_nat (PageCount issue))%nat →
        GetURL issue (Z.of_nat i) = (u i, None)
        ∧ fetch_ok E ctx (now w + 2 * i) (u i) (b i)) →
  ∃ pages w',
    downloadAllPages E ctx issue w = ((pages, None), w')
    ∧ view pages =
        map (λ i, {| reader := Some (b i) |})
            (match Z.to_nat (PageCount issue) with
             | O => []
             | S m => seq 1 m ++ [0%nat]
             end)
    ∧ now w' = (now w + 2 * Z.to_nat (PageCount issue))%nat
    ∧ fs w' = fs w.
Proof.
  intros Hall.
  destruct (pagesLoop_all_ok_world issue u b (Z.to_nat (PageCount issue))
              0%nat pages_nil w wf_nil_slice Hall)
    as (pages & w' & Hrun & Hwf & Hview & Hnow & Hfs).
  exists (rotate page_zero (growth E) pages), w'.
  unfold downloadAllPages. unfold_M.
  change (Z.of_nat 0) with 0 in Hrun. rewrite Hrun. split; [done|].
  split; [|done].
  rewrite view_rotate, Hview by done. simpl.
  destruct (Z.to_nat (PageCount issue)) as [|m]; [done|].
  simpl. by rewrite map_app.
Qed.

Lemma requests_file_calls (l : list (Event * FS)) :
  Forall (λ x, is_file_call (fst x) = true) l → requests (map fst l) = [].
Proof.
  induction 1 as [|[e f] l He _ IH]; [done|].
  simpl in *. unfold requests in *. simpl. rewrite IH. by destruct e.
Qed.

Variable magazine : Magazine.
Variable metadata : IssueMetadata.
Variable path : string.

(** Up to the call of [save]: the three steps before the pages are
    fetched, and the step after. *)
Lemma issueFunc_pages_ok w issue :
  session_GetIssue E (S (now w)) session (mID magazine) (iID metadata) = Ok issue →
  ∃ l3 w3,
    continues w l3 w3 ∧ requests (map fst l3) = []
    ∧ now w3 = (now w + 3)%nat ∧ fs w3 = fs w
    ∧ ∀ pages w4,
        downloadAllPages E ctx issue w3 = ((pages, None), w4) →
        issueFunc E ctx session magazine metadata path w
        = save E session pages (Password issue) path
            (emit (EvInfo (mTitle magazine) (iTitle metadata) "saving issue")
               (fs w4) w4).
Proof.
  intros Hget.
  eexists _, (emit (EvInfo (mTitle magazine) (iTitle metadata) "downloading issue")
                (fs w)
                (emit (EvGetIssue (mID magazine) (iID metadata) None) (fs w)
                   (emit (EvInfo (mTitle magazine) (iTitle metadata)
                            "downloading issue metadata") (fs w) w))).
  split; [repeat apply continues_snoc; apply continues_refl|].
  split; [done|]. split; [rewrite !now_emit; lia|]. split; [done|].
  intros pages w4 Hpages.
  unfold issueFunc, entry_Info, GetIssue. unfold_M. rewrite now_emit, Hget.
  cbn [err_of fs emit]. rewrite Hpages.
  destruct (save E session pages (Password issue) path _) as [[e|] w5]; done.
Qed.
End EndToEnd.

(** X13: when the metadata request, every URL derivation and every fetch
    succeed, the containers merge into [doc], the temporary path is not a
    directory and the four file calls go through, the function literal
    returns [nil] and leaves, at the final path, the encoding of [doc]: the
    sub-pages of the containers 1, 2, ..., N-1, 0 in that order.  The
    temporary path is free, every other name is as it was. *)
Theorem issueFunc_success E ctx session magazine metadata path w issue
    (u : nat → string) (b : nat → bytes) doc :
  session_GetIssue E (S (now w)) session (mID magazine) (iID metadata) = Ok issue →
  (∀ i, (i < Z.to_nat (PageCount issue))%nat →
        GetURL issue (Z.of_nat i) = (u i, None)
        ∧ fetch_ok E ctx (now w + 3 + 2 * i) (u i) (b i)) →
  merge_spec E (list_byte_of_string (Password issue))
    (map (λ i, {| reader := Some (b i) |})
       (match Z.to_nat (PageCount issue) with
        | O => []
        | S m => seq 1 m ++ [0%nat]
        end)) = Some doc →
  fs w !! (path +:+ ".part") ≠ Some Dir →
  (∀ k, (k < 4)%nat →
        fault E (now w + 4 + 2 * Z.to_nat (PageCount issue) + k) = None) →
  fst (issueFunc E ctx session magazine metadata path w) = None
  ∧ fs (snd (issueFunc E ctx session magazine metadata path w))
    = <[path := File (encode E doc)]> (delete (path +:+ ".part") (fs w)).
Proof.
  intros Hget Hall Hspec Hdir Hfault.
  destruct (issueFunc_pages_ok E ctx session magazine metadata path w issue Hget)
    as (l3 & w3 & _ & _ & Hnow3 & Hfs3 & Hrun).
  destruct (downloadAllPages_all_ok_world E ctx issue u b w3)
    as (pages & w4 & Hpages & Hview & Hnow4 & Hfs4).
  { intros i Hi. rewrite Hnow3. by apply Hall. }
  rewrite (Hrun pages w4 Hpages).
  rewrite <- Hview in Hspec.
  destruct (save_success E session pages (Password issue) path
              (emit (EvInfo (mTitle magazine) (iTitle metadata) "saving issue")
                 (fs w4) w4) doc) as [Hnil Hfs].
  - by apply unlockAndMerge_spec_Some.
  - cbn [fs emit]. by rewrite Hfs4, Hfs3.
  - intros k Hk. rewrite now_emit, Hnow4, Hnow3.
    replace (S (now w + 3 + 2 * Z.to_nat (PageCount issue)) + k)%nat
      with (now w + 4 + 2 * Z.to_nat (PageCount issue) + k)%nat by lia.
    by apply Hfault.
  - split; [done|]. rewrite Hfs. cbn [fs emit]. by rewrite Hfs4, Hfs3.
Qed.

Lemma issueFunc_success_sample :
  fst (issueFunc (demo_env 200 no_fault) Background demo_session demo_magazine
         {| iID := "i1"; iTitle := "One" |} "Mag/One.pdf" empty_world) = None
  ∧ fs (snd (issueFunc (demo_env 200 no_fault) Background demo_session demo_magazine
               {| iID := "i1"; iTitle := "One" |} "Mag/One.pdf" empty_world))
    = <["Mag/One.pdf" :=
          File (encode (demo_env 200 no_fault)
                  [ {| Contents := [Byte.x75; Byte.x31; Byte.x01]; Annots := None |};
                    {| Contents := [Byte.x75; Byte.x32; Byte.x01]; Annots := None |};
                    {| Contents := [Byte.x75; Byte.x30; Byte.x01]; Annots := None |} ])]>
        (delete ("Mag/One.pdf" +:+ ".part") (fs empty_world)).
Proof.
  apply (issueFunc_success (demo_env 200 no_fault) Background demo_session
           demo_magazine {| iID := "i1"; iTitle := "One" |} "Mag/One.pdf" empty_world
           (demo_issue 3)
           (λ i, "u" +:+ fmt_d (Z.of_nat i))
           (λ i, list_byte_of_string ("u" +:+ fmt_d (Z.of_nat i)))).
  - reflexivity.
  - intros i Hi. split; [reflexivity|].
    split; [reflexivity|]. eexists. split; reflexivity.
  - reflexivity.
  - discriminate.
  - intros k _. reflexivity.
Defined.

(** X14: an issue that announces no page (a count of zero, or below) is
    not refused: no page is requested, and when the file calls go through
    a document without pages is saved at the final path. *)
Theorem issueFunc_issue_without_pages E ctx session magazine metadata path w issue :
  session_GetIssue E (S (now w)) session (mID magazine) (iID metadata) = Ok issue →
  (PageCount issue ≤ 0)%Z →
  fs w !! (path +:+ ".part") ≠ Some Dir →
  (∀ k, (k < 4)%nat → fault E (now w + 4 + k) = None) →
  fst (issueFunc E ctx session magazine metadata path w) = None
  ∧ fs (snd (issueFunc E ctx session magazine metadata path w)) !! path
    = Some (File (encode E NewPdfWriter))
  ∧ requests (new_events w (snd (issueFunc E ctx session magazine metadata path w)))
    = [].
Proof.
  intros Hget Hcount Hdir Hfault.
  destruct (issueFunc_pages_ok E ctx session magazine metadata path w issue Hget)
    as (l3 & w3 & Hc3 & Hreq3 & Hnow3 & Hfs3 & Hrun).
  assert (Hpages : downloadAllPages E ctx issue w3 = ((pages_nil, None), w3)).
  { unfold downloadAllPages.
    replace (Z.to_nat (PageCount issue)) with 0%nat by lia. reflexivity. }
  rewrite (Hrun pages_nil w3 Hpages).
  set (w5 := emit _ (fs w3) w3).
  destruct (save_success E session pages_nil (Password issue) path w5 NewPdfWriter)
    as [Hnil Hfs].
  - reflexivity.
  - unfold w5. cbn [fs emit]. by rewrite Hfs3.
  - intros k Hk. unfold w5. rewrite now_emit, Hnow3.
    replace (S (now w + 3) + k)%nat with (now w + 4 + k)%nat by lia.
    by apply Hfault.
  - split; [done|]. split; [rewrite Hfs; apply lookup_insert_eq|].
    destruct (save_trace E session pages_nil (Password issue) path w5)
      as (ls & Hcs & Hfile & _).
    assert (Hc : continues w ((l3 ++ [(EvInfo (mTitle magazine) (iTitle metadata)
                                         "saving issue", fs w3)]) ++ ls)
                   (snd (save E session pages_nil (Password issue) path w5))).
    { eapply continues_trans; [|exact Hcs]. by apply continues_snoc. }
    rewrite (continues_new_events _ _ _ Hc).
    rewrite !map_app, !requests_app, Hreq3, (requests_file_calls ls Hfile). done.
Qed.

Lemma issueFunc_issue_without_pages_sample :
  fst (issueFunc (with_GetIssue (Ok (demo_issue 0)) (demo_env 200 no_fault))
         Background demo_session demo_magazine
         {| iID := "i1"; iTitle := "One" |} "Mag/One.pdf" empty_world) = None
  ∧ fs (snd (issueFunc (with_GetIssue (Ok (demo_issue 0)) (demo_env 200 no_fault))
               Background demo_session demo_magazine
               {| iID := "i1"; iTitle := "One" |} "Mag/One.pdf" empty_world))
      !! "Mag/One.pdf"
    = Some (File (encode (with_GetIssue (Ok (demo_issue 0)) (demo_env 200 no_fault))
                    NewPdfWriter))
  ∧ requests (new_events empty_world
                (snd (issueFunc (with_GetIssue (Ok (demo_issue 0))
                                   (demo_env 200 no_fault))
                        Background demo_session demo_magazine
                        {| iID := "i1"; iTitle := "One" |} "Mag/One.pdf"
                        empty_world)))
    = [].
Proof.
  apply (issueFunc_issue_without_pages
           (with_GetIssue (Ok (demo_issue 0)) (demo_env 200 no_fault))
           Background demo_session demo_magazine
           {| iID := "i1"; iTitle := "One" |} "Mag/One.pdf" empty_world
           (demo_issue 0)).
  - reflexivity.
  - simpl. lia.
  - discriminate.
  - intros k _. reflexivity.
Defined.

(** ** [downloadAllIssues]: a run over a library *)

Section BatchMore.
Variable E : Env.
Variable ctx : Ctx.
Variable session : Session.

(** *** Everything is there already *)

Lemma issuesLoop_on_disk magazine issues : ∀ w,
  (∀ i, i ∈ issues → is_Some (fs w !! issue_path E magazine i)) →
  continues w
    (map (λ i, (EvInfo (mTitle magazine) (iTitle i) "issue already downloaded", fs w))
       issues)
    (snd (issuesLoop E ctx session magazine (sanitize E (mTitle magazine)) issues w))
  ∧ fs (snd (issuesLoop E ctx session magazine (sanitize E (mTitle magazine)) issues w))
    = fs w.
Proof.
  induction issues as [|i rest IH]; intros w Hall.
  - split; [apply continues_refl|done].
  - cbn [issuesLoop]. unfold_M.
    rewrite issueBody_skip by (apply Hall, elem_of_cons; by left).
    set (w1 := emit _ (fs w) w).
    destruct (IH w1) as [Hc Hfs].
    { intros j Hj. unfold w1. cbn [fs emit]. apply Hall, elem_of_cons. by right. }
    split; [|by rewrite Hfs].
    cbn [map]. unfold continues in *. rewrite Hc. unfold w1. cbn [trace fs emit].
    by rewrite <- app_assoc.
Qed.

Lemma skip_lines_cons m rest f :
  skip_lines (m :: rest) f
  = map (λ i, (EvInfo (mTitle m) (iTitle i) "issue already downloaded", f)) (Issues m)
    ++ skip_lines rest f.
Proof.
  unfold skip_lines, batch_issues. cbn [flat_map].
  by rewrite map_app, map_map.
Qed.

Lemma magazinesLoop_on_disk magazines : ∀ w,
  on_disk E magazines w →
  continues w (skip_lines magazines (fs w))
    (snd (magazinesLoop E ctx session magazines w))
  ∧ fs (snd (magazinesLoop E ctx session magazines w)) = fs w.
Proof.
  induction magazines as [|m rest IH]; intros w Hdisk.
  - split; [apply continues_refl|done].
  - cbn [magazinesLoop]. unfold_M. rewrite magazineBody_eq. cbn zeta.
    destruct (Hdisk m ltac:(apply elem_of_cons; by left)) as [[d Hd] Hissues].
    rewrite Hd.
    destruct (issuesLoop_on_disk m (Issues m) w Hissues) as [Hc1 Hfs1].
    destruct (issuesLoop E ctx session m _ (Issues m) w) as [[] w1]. cbn [snd] in *.
    destruct (IH w1) as [Hc2 Hfs2].
    { intros m' Hm'. rewrite Hfs1. apply Hdisk, elem_of_cons. by right. }
    split; [|by rewrite Hfs2].
    rewrite skip_lines_cons. eapply continues_trans; [exact Hc1|].
    by rewrite <- Hfs1.
Qed.

(** *** The order of the turns *)

Lemma turns_app (l1 l2 : list Event) : turns (l1 ++ l2) = turns l1 ++ turns l2.
Proof. unfold turns. apply omap_app. Qed.

Lemma turns_cons (e : Event) (l : list Event) :
  turns (e :: l) = match turn_of e with Some x => x :: turns l | None => turns l end.
Proof. reflexivity. Qed.

Lemma turns_count (l : list Event) : length (turns l) = length (List.filter is_turn l).
Proof.
  induction l as [|e l IH]; [done|].
  unfold turns in *. destruct e; simpl; try done.
  case_bool_decide; simpl; [f_equal|]; exact IH.
Qed.

Lemma issueBody_turns_exact magazine dir metadata w :
  ∃ l, continues w l (snd (issueBody E ctx session magazine dir metadata w))
    ∧ turns (map fst l) = [(mTitle magazine, iTitle metadata)].
Proof.
  destruct (issueBody_turn E ctx session magazine dir metadata w)
    as (l & Hc & HT & _ & msg & l' & -> & Hturn).
  exists ((EvInfo (mTitle magazine) (iTitle metadata) msg, fs w) :: l').
  split; [done|].
  cbn [map fst List.filter] in HT. rewrite Hturn in HT. cbn [length] in HT.
  assert (Hnil : turns (map fst l') = []).
  { apply length_zero_iff_nil. rewrite turns_count. lia. }
  cbn [map fst]. rewrite turns_cons. cbn [turn_of]. cbn [is_turn] in Hturn.
  by rewrite Hturn, Hnil.
Qed.

Lemma issuesLoop_turns_exact magazine dir issues : ∀ w,
  ∃ l, continues w l (snd (issuesLoop E ctx session magazine dir issues w))
    ∧ turns (map fst l) = map (λ i, (mTitle magazine, iTitle i)) issues.
Proof.
  induction issues as [|i rest IH]; intros w.
  - exists []. split; [apply continues_refl|done].
  - cbn [issuesLoop]. unfold_M.
    destruct (issueBody_turns_exact magazine dir i w) as (l1 & Hc1 & HT1).
    destruct (issueBody E ctx session magazine dir i w) as [[] w1]. cbn [snd] in *.
    destruct (IH w1) as (l2 & Hc2 & HT2).
    exists (l1 ++ l2). split; [by eapply continues_trans|].
    by rewrite map_app, turns_app, HT1, HT2.
Qed.

Lemma magazineBody_turns_exact magazine w :
  ∃ l, continues w l (snd (magazineBody E ctx session magazine w))
    ∧ ((turns (map fst l) = [] ∧ Exists (λ x, mkdir_failed (fst x) = true) l)
       ∨ turns (map fst l) = map (λ i, (mTitle magazine, iTitle i)) (Issues magazine)).
Proof.
  rewrite magazineBody_eq. cbn zeta.
  destruct (fs w !! sanitize E (mTitle magazine)) as [n|].
  { destruct (issuesLoop_turns_exact magazine (sanitize E (mTitle magazine))
                (Issues magazine) w) as (l & Hc & HT).
    exists l. split; [done|]. by right. }
  destruct (blocked E (now w) (sanitize E (mTitle magazine))) as [be|].
  { destruct (issuesLoop_turns_exact magazine (sanitize E (mTitle magazine))
                (Issues magazine) w) as (l & Hc & HT).
    exists l. split; [done|]. by right. }
  destruct (fault E (now w)) as [e|].
  { eexists. split; [cbn [snd]; do 2 apply continues_snoc; apply continues_refl|].
    left. split; [done|]. by apply Exists_cons_hd. }
  set (w1 := emit _ _ w).
  destruct (issuesLoop_turns_exact magazine (sanitize E (mTitle magazine))
              (Issues magazine) w1) as (l & Hc & HT).
  eexists. split; [eapply continues_trans; [apply continues_emit|exact Hc]|].
  right. by rewrite <- HT.
Qed.

Lemma magazinesLoop_turns_exact magazines : ∀ w,
  ∃ l, continues w l (snd (magazinesLoop E ctx session magazines w))
    ∧ turns (map fst l) `sublist_of` batch_issues magazines
    ∧ (Forall (λ x, mkdir_failed (fst x) = false) l →
       turns (map fst l) = batch_issues magazines).
Proof.
  induction magazines as [|m rest IH]; intros w.
  - exists []. split; [apply continues_refl|done].
  - cbn [magazinesLoop]. unfold_M.
    destruct (magazineBody_turns_exact m w) as (l1 & Hc1 & HT1).
    destruct (magazineBody E ctx session m w) as [[] w1]. cbn [snd] in *.
    destruct (IH w1) as (l2 & Hc2 & Hsub & Hall).
    exists (l1 ++ l2). split; [by eapply continues_trans|].
    rewrite map_app, turns_app. unfold batch_issues. cbn [flat_map].
    fold (batch_issues rest). split.
    + destruct HT1 as [[-> _]| ->].
      * by apply sublist_inserts_l.
      * by apply sublist_app.
    + intros [Hok1 Hok2]%Forall_app.
      destruct HT1 as [[_ Hbad]| ->].
      * exfalso. apply Exists_exists in Hbad as (x & Hx & Hbad).
        rewrite Forall_forall in Hok1. specialize (Hok1 x Hx). congruence.
      * by rewrite (Hall Hok2).
Qed.

(** *** What a run leaves alone *)

Variable p : string.

Lemma issueBody_keeps magazine metadata w :
  p ≠ issue_path E magazine metadata +:+ ".part" →
  (fs w !! p = None → p ≠ issue_path E magazine metadata) →
  fs (snd (issueBody E ctx session magazine (sanitize E (mTitle magazine)) metadata w))
    !! p = fs w !! p.
Proof.
  intros Htemp Hpath.
  destruct (fs w !! issue_path E magazine metadata) as [n'|] eqn:Hn.
  - unfold issue_path in Hn. by rewrite issueBody_skip by (by rewrite Hn).
  - assert (Hne : p ≠ issue_path E magazine metadata).
    { intros ->. by apply Hpath. }
    unfold issue_path in Hn.
    rewrite (issueBody_run E ctx session _ _ _ _ Hn). cbn zeta. cbn [snd].
    fold (issue_path E magazine metadata) in *.
    destruct (issueFunc_frame E ctx session magazine metadata
                (issue_path E magazine metadata) w)
      as (l & _ & _ & _ & _ & Hframe).
    destruct (fst (issueFunc _ _ _ _ _ _ _)); cbn [fs emit]; by apply Hframe.
Qed.

Lemma issuesLoop_keeps magazine issues : ∀ w,
  (∀ i, i ∈ issues → p ≠ issue_path E magazine i +:+ ".part") →
  (fs w !! p = None → ∀ i, i ∈ issues → p ≠ issue_path E magazine i) →
  fs (snd (issuesLoop E ctx session magazine (sanitize E (mTitle magazine)) issues w))
    !! p = fs w !! p.
Proof.
  induction issues as [|i rest IH]; intros w Htemp Hpath; [done|].
  cbn [issuesLoop]. unfold_M.
  pose proof (issueBody_keeps magazine i w) as H1.
  destruct (issueBody E ctx session magazine _ i w) as [[] w1]. cbn [snd] in *.
  rewrite IH.
  - apply H1; [apply Htemp, elem_of_cons; by left|].
    intros Hnone. apply Hpath; [done|apply elem_of_cons; by left].
  - intros j Hj. apply Htemp, elem_of_cons. by right.
  - rewrite H1.
    + intros Hnone j Hj. apply Hpath; [done|apply elem_of_cons; by right].
    + apply Htemp, elem_of_cons. by left.
    + intros Hnone. apply Hpath; [done|apply elem_of_cons; by left].
Qed.

Lemma magazineBody_keeps magazine w :
  (∀ i, i ∈ Issues magazine → p ≠ issue_path E magazine i +:+ ".part") →
  (fs w !! p = None →
   p ≠ sanitize E (mTitle magazine)
   ∧ ∀ i, i ∈ Issues magazine → p ≠ issue_path E magazine i) →
  fs (snd (magazineBody E ctx session magazine w)) !! p = fs w !! p.
Proof.
  intros Htemp Hnames. rewrite magazineBody_eq. cbn zeta.
  destruct (fs w !! sanitize E (mTitle magazine)) as [d|] eqn:Hd.
  { apply issuesLoop_keeps; [done|]. intros Hnone. by apply Hnames. }
  destruct (blocked E (now w) (sanitize E (mTitle magazine))) as [be|].
  { apply issuesLoop_keeps; [done|]. intros Hnone. by apply Hnames. }
  destruct (fault E (now w)) as [e|]; [done|].
  assert (Hne : sanitize E (mTitle magazine) ≠ p).
  { intros <-. by destruct (Hnames Hd). }
  rewrite issuesLoop_keeps; cbn [fs emit]; rewrite ?lookup_insert_ne by done;
    [done|done|].
  intros Hnone. by apply Hnames.
Qed.

Lemma batch_temps_cons m rest :
  batch_temps E (m :: rest)
  = map (λ i, issue_path E m i +:+ ".part") (Issues m) ++ batch_temps E rest.
Proof. done. Qed.

Lemma not_batch_temps m rest :
  p ∉ batch_temps E (m :: rest) →
  (∀ i, i ∈ Issues m → p ≠ issue_path E m i +:+ ".part") ∧ p ∉ batch_temps E rest.
Proof.
  rewrite batch_temps_cons. intros Hnot. split.
  - intros i Hi ->. apply Hnot, elem_of_app. left.
    by apply (list_elem_of_fmap_2 (λ i, issue_path E m i +:+ ".part")).
  - intros Hin. apply Hnot, elem_of_app. by right.
Qed.

Lemma elem_of_pair_names m (issues : list IssueMetadata) i :
  i ∈ issues →
  issue_path E m i
    ∈ flat_map (λ i, [issue_path E m i; issue_path E m i +:+ ".part"]) issues
  ∧ issue_path E m i +:+ ".part"
    ∈ flat_map (λ i, [issue_path E m i; issue_path E m i +:+ ".part"]) issues.
Proof.
  induction issues as [|j rest IH]; intros Hi; [by apply elem_of_nil in Hi|].
  cbn [flat_map app]. apply elem_of_cons in Hi as [->|Hi].
  - split; mem_solve.
  - destruct (IH Hi). split; do 2 (apply elem_of_cons; right); done.
Qed.

Lemma not_batch_names m rest :
  p ∉ batch_names E (m :: rest) →
  p ≠ sanitize E (mTitle m)
  ∧ (∀ i, i ∈ Issues m → p ≠ issue_path E m i ∧ p ≠ issue_path E m i +:+ ".part")
  ∧ p ∉ batch_names E rest.
Proof.
  unfold batch_names. cbn [flat_map]. fold (batch_names E rest).
  intros Hnot. split; [|split].
  - intros ->. apply Hnot. apply elem_of_app. left. apply elem_of_cons. by left.
  - intros i Hi. destruct (elem_of_pair_names m (Issues m) i Hi) as [H1 H2].
    split; intros ->; apply Hnot, elem_of_app; left; apply elem_of_cons; by right.
  - intros Hin. apply Hnot, elem_of_app. by right.
Qed.

Lemma magazinesLoop_keeps magazines : ∀ w,
  p ∉ batch_temps E magazines →
  (fs w !! p = None → p ∉ batch_names E magazines) →
  fs (snd (magazinesLoop E ctx session magazines w)) !! p = fs w !! p.
Proof.
  induction magazines as [|m rest IH]; intros w Htemps Hnames; [done|].
  apply not_batch_temps in Htemps as [Htemp Hrest].
  cbn [magazinesLoop]. unfold_M.
  assert (H1 : fs (snd (magazineBody E ctx session m w)) !! p = fs w !! p).
  { apply magazineBody_keeps; [done|]. intros Hnone.
    destruct (not_batch_names m rest (Hnames Hnone)) as (Hd & Hi & _).
    split; [done|]. intros i Hin. by apply Hi. }
  destruct (magazineBody E ctx session m w) as [[] w1]. cbn [snd] in *.
  rewrite IH; [done|done|].
  rewrite H1. intros Hnone.
  by destruct (not_batch_names m rest (Hnames Hnone)) as (_ & _ & Hr).
Qed.
End BatchMore.

Lemma batch_temps_names E magazines p :
  p ∈ batch_temps E magazines → p ∈ batch_names E magazines.
Proof.
  induction magazines as [|m rest IH]; [done|].
  rewrite batch_temps_cons. unfold batch_names. cbn [flat_map].
  fold (batch_names E rest). intros [Hin|Hin]%elem_of_app.
  - apply list_elem_of_fmap in Hin as (i & -> & Hi).
    apply elem_of_app. left. apply elem_of_cons. right.
    by apply elem_of_pair_names.
  - apply elem_of_app. right. by apply IH.
Qed.

(** X15: when the directory of every magazine and the file of every issue
    are on the disk, a run only says so: one line "issue already
    downloaded" per issue, in the order of the catalogue, no request, no
    file call, and the filesystem as it was. *)
Theorem downloadAllIssues_on_disk_is_idle E ctx session magazines w :
  on_disk E magazines w →
  fst (downloadAllIssues E ctx session magazines w) = None
  ∧ continues w (skip_lines magazines (fs w))
      (snd (downloadAllIssues E ctx session magazines w))
  ∧ fs (snd (downloadAllIssues E ctx session magazines w)) = fs w.
Proof.
  intros Hdisk.
  destruct (magazinesLoop_on_disk E ctx session magazines w Hdisk) as [Hc Hfs].
  unfold downloadAllIssues. unfold_M.
  by destruct (magazinesLoop E ctx session magazines w) as [[] w1].
Qed.

Lemma downloadAllIssues_on_disk_is_idle_sample :
  fst (downloadAllIssues (demo_env 200 no_fault) Background demo_session
         [ {| mID := "m1"; mTitle := "Mag";
              Issues := [ {| iID := "i1"; iTitle := "One" |} ] |} ] stocked_world)
    = None
  ∧ continues stocked_world
      (skip_lines [ {| mID := "m1"; mTitle := "Mag";
                       Issues := [ {| iID := "i1"; iTitle := "One" |} ] |} ]
         (fs stocked_world))
      (snd (downloadAllIssues (demo_env 200 no_fault) Background demo_session
              [ {| mID := "m1"; mTitle := "Mag";
                   Issues := [ {| iID := "i1"; iTitle := "One" |} ] |} ]
              stocked_world))
  ∧ fs (snd (downloadAllIssues (demo_env 200 no_fault) Background demo_session
               [ {| mID := "m1"; mTitle := "Mag";
                    Issues := [ {| iID := "i1"; iTitle := "One" |} ] |} ]
               stocked_world))
    = fs stocked_world.
Proof.
  apply (downloadAllIssues_on_disk_is_idle (demo_env 200 no_fault) Background
           demo_session
           [ {| mID := "m1"; mTitle := "Mag";
                Issues := [ {| iID := "i1"; iTitle := "One" |} ] |} ]
           stocked_world).
  intros m Hm.
  apply elem_of_cons in Hm as [->|Hm]; [|by apply elem_of_nil in Hm].
  split; [by eexists|].
  intros i Hi.
  apply elem_of_cons in Hi as [->|Hi]; [|by apply elem_of_nil in Hi].
  by eexists.
Defined.

(** X16: a run takes up the issues in the order of the catalogue, magazine
    by magazine and issue by issue, each at most once: the turns are a
    subsequence of the issues of the batch, and all of them unless the
    directory of some magazine could not be created. *)
Theorem downloadAllIssues_takes_issues_in_order E ctx session magazines w :
  turns (new_events w (snd (downloadAllIssues E ctx session magazines w)))
    `sublist_of` batch_issues magazines
  ∧ (Forall (λ e, mkdir_failed e = false)
       (new_events w (snd (downloadAllIssues E ctx session magazines w))) →
     turns (new_events w (snd (downloadAllIssues E ctx session magazines w)))
     = batch_issues magazines).
Proof.
  destruct (magazinesLoop_turns_exact E ctx session magazines w)
    as (l & Hc & Hsub & Hall).
  unfold downloadAllIssues. unfold_M.
  destruct (magazinesLoop E ctx session magazines w) as [[] w1]. cbn [snd] in *.
  rewrite (continues_new_events _ _ _ Hc). split; [done|].
  intros Hok. apply Hall. by apply Forall_map in Hok.
Qed.

(** X17: a run removes and changes nothing that is on the disk when it
    starts, file or directory, except at the temporary paths of its
    issues. *)
Theorem downloadAllIssues_keeps_what_exists E ctx session magazines w p n :
  fs w !! p = Some n →
  p ∉ batch_temps E magazines →
  fs (snd (downloadAllIssues E ctx session magazines w)) !! p = Some n.
Proof.
  intros Hp Htemps.
  pose proof (magazinesLoop_keeps E ctx session p magazines w Htemps) as Hkeep.
  unfold downloadAllIssues. unfold_M.
  destruct (magazinesLoop E ctx session magazines w) as [[] w1]. cbn [snd] in *.
  rewrite Hkeep; [done|]. by rewrite Hp.
Qed.

Lemma downloadAllIssues_keeps_what_exists_sample :
  fs (snd (downloadAllIssues (demo_env 200 no_fault) Background demo_session
             [demo_magazine] stocked_world)) !! "Mag" = Some Dir.
Proof.
  apply (downloadAllIssues_keeps_what_exists (demo_env 200 no_fault) Background
           demo_session [demo_magazine] stocked_world "Mag" Dir).
  - reflexivity.
  - intros Hin. apply list_elem_of_In in Hin. vm_compute in Hin.
    destruct Hin as [Hin|[Hin|[]]]; discriminate.
Defined.

(** X18: a run creates and changes nothing outside the names of its
    batch: the directories of the magazines, the final paths of the issues
    and their temporary paths. *)
Theorem downloadAllIssues_touches_batch_names_only E ctx session magazines w p :
  p ∉ batch_names E magazines →
  fs (snd (downloadAllIssues E ctx session magazines w)) !! p = fs w !! p.
Proof.
  intros Hnames.
  pose proof (magazinesLoop_keeps E ctx session p magazines w) as Hkeep.
  unfold downloadAllIssues. unfold_M.
  destruct (magazinesLoop E ctx session magazines w) as [[] w1]. cbn [snd] in *.
  apply Hkeep; [|done].
  intros Hin. by apply Hnames, batch_temps_names.
Qed.

Lemma downloadAllIssues_touches_batch_names_only_sample :
  fs (snd (downloadAllIssues (demo_env 200 no_fault) Background demo_session
             [demo_magazine] empty_world)) !! "notes.txt"
  = fs empty_world !! "notes.txt".
Proof.
  apply (downloadAllIssues_touches_batch_names_only (demo_env 200 no_fault)
           Background demo_session [demo_magazine] empty_world "notes.txt").
  intros Hin. apply list_elem_of_In in Hin. vm_compute in Hin.
  destruct Hin as [Hin|[Hin|[Hin|[Hin|[Hin|[]]]]]]; discriminate.
Defined.
